(** * neuralflake: the retrieval pipeline of [data_agent], embedded in Rocq

    A shallow embedding of the chunker ([rag/chunking.py]), the document
    processor ([rag/document_processor.py]), the similarity utilities
    ([rag/embeddings.py]), the Chroma vector store
    ([rag/vector_store/chroma.py]), the retriever ([rag/retriever.py]) and
    the OpenAI provider ([llm/openai.py]).

    Python values are modelled as follows.
    - [str] is a list of characters; [len], slicing, [str.split] and
      [str.join] are written out below with Python's behaviour on negative
      indices and on the empty separator.
    - [int] is [Z]; [//] is [Z.div] (both round towards minus infinity).
    - [float] is Rocq's primitive binary64 float, the same IEEE 754 format as
      Python's.
    - an exception is a value of [exn] carried by [result]; a [try]/[except
      Exception] block is a match on [Raise].
    - [dict] with string keys is [gmap string _]. *)

From Stdlib Require Import ZArith List Ascii String Bool Lia Floats.
From stdpp Require Import base gmap strings list.
Import ListNotations.

Local Open Scope Z_scope.

(** ** Python runtime *)

Abbreviation str := (list ascii).

Inductive exn : Type :=
| ValueError
| IndexError
| BackendError.

Inductive result (A : Type) : Type :=
| Ok (a : A)
| Raise (e : exn).

Arguments Ok {A} a.
Arguments Raise {A} e.

Definition len {A : Type} (l : list A) : Z := Z.of_nat (length l).

(** Truthiness of a sequence: [if xs:] / [if not xs:]. *)
Definition truthy {A : Type} (l : list A) : bool :=
  match l with
  | [] => false
  | _ :: _ => true
  end.

Fixpoint startswith (t p : str) : bool :=
  match p, t with
  | [], _ => true
  | _ :: _, [] => false
  | a :: p', b :: t' => Ascii.eqb a b && startswith t' p'
  end.

(** [split_scan sep skip t] scans [t] from the left.  [skip] counts the
    characters of a separator occurrence that are still to be consumed;
    occurrences are taken leftmost first and do not overlap, as
    [str.split] does. *)
Fixpoint split_scan (sep : str) (skip : nat) (t : str) : list str :=
  match t with
  | [] => [[]]
  | c :: t' =>
      match skip with
      | S k => split_scan sep k t'
      | O =>
          if startswith t sep
          then [] :: split_scan sep (length sep - 1) t'
          else match split_scan sep 0 t' with
               | piece :: rest => (c :: piece) :: rest
               | [] => [[c]]
               end
      end
  end.

(** [text.split(separator)]: the empty separator raises [ValueError]. *)
Definition split (text sep : str) : result (list str) :=
  match sep with
  | [] => Raise ValueError
  | _ :: _ => Ok (split_scan sep 0 text)
  end.

(** [separator.join(parts)] *)
Fixpoint join (sep : str) (parts : list str) : str :=
  match parts with
  | [] => []
  | p :: rest =>
      match rest with
      | [] => p
      | _ :: _ => p ++ sep ++ join sep rest
      end
  end.

(** Slice bounds: a negative bound counts from the end, and both bounds are
    clamped to [0, n]. *)
Definition clamp_index (n i : Z) : Z :=
  if i <? 0 then Z.max 0 (i + n) else Z.min i n.

(** [l[i:j]] *)
Definition slice {A : Type} (l : list A) (i j : Z) : list A :=
  let lo := clamp_index (len l) i in
  let hi := clamp_index (len l) j in
  firstn (Z.to_nat (hi - lo)) (skipn (Z.to_nat lo) l).

(** [range(start, stop, step)] as the list of its values; a zero step
    raises [ValueError]. *)
Definition range (start stop step : Z) : result (list Z) :=
  if step =? 0 then Raise ValueError
  else
    let count :=
      if 0 <? step then (stop - start + step - 1) / step
      else (start - stop - step - 1) / (- step) in
    Ok (map (fun k => start + Z.of_nat k * step) (seq 0 (Z.to_nat count))).

(** ** rag/chunking.py *)

Fixpoint stride_loop (text : str) (chunk_size : Z) (indices : list Z)
  : list str :=
  match indices with
  | [] => []
  | i :: rest =>
      let chunk_end := Z.min (i + chunk_size) (len text) in
      let chunk := slice text i chunk_end in
      if chunk_end =? len text then [chunk]
      else chunk :: stride_loop text chunk_size rest
  end.

(** The stride the character algorithm settles on. *)
Definition stride_of (chunk_size chunk_overlap : Z) : Z :=
  let stride := chunk_size - chunk_overlap in
  if stride <=? 0 then chunk_size / 2 else stride.

Definition _chunk_text_by_chars (text : str) (chunk_size chunk_overlap : Z)
  : result (list str) :=
  if negb (truthy text) then Ok []
  else if len text <=? chunk_size then Ok [text]
  else
    match range 0 (len text) (stride_of chunk_size chunk_overlap) with
    | Raise e => Raise e
    | Ok indices => Ok (stride_loop text chunk_size indices)
    end.

(** The backward walk of [_estimate_chunks_for_overlap]: [rchunks] is the
    list of chunks still to visit, last chunk first, [k] the number of
    chunks already counted and [total_size] their size so far. *)
Fixpoint estimate_walk (sep_len overlap_size : Z) (rchunks : list str)
  (k : nat) (total_size : Z) : option nat :=
  match rchunks with
  | [] => None
  | c :: rest =>
      let total_size := if (0 <? k)%nat then total_size + sep_len else total_size in
      let total_size := total_size + len c in
      if total_size >=? overlap_size then Some (S k)
      else estimate_walk sep_len overlap_size rest (S k) total_size
  end.

Definition _estimate_chunks_for_overlap (chunks : list str)
  (overlap_size : Z) (separator : str) : nat :=
  if negb (truthy chunks) then O
  else
    match estimate_walk (len separator) overlap_size (rev chunks) 0 0 with
    | Some kept => kept
    | None => length chunks
    end.

(** The three variables the separator loop of [chunk_text] updates. *)
Record acc : Type := mkAcc {
  chunks : list str;
  current_chunk : list str;
  current_size : Z
}.

Definition sum_Z (l : list Z) : Z := fold_right Z.add 0 l.

(** One iteration of [for split in splits]. *)
Definition chunk_step (chunk_size chunk_overlap : Z) (separator : str)
  (a : acc) (piece : str) : acc :=
  if negb (truthy piece) then a
  else
    let split_with_sep :=
      if truthy (current_chunk a) then separator ++ piece else piece in
    let split_size := len split_with_sep in
    let a :=
      if truthy (current_chunk a) && (current_size a + split_size >? chunk_size)
      then
        let overlap_start :=
          Z.max 0 (len (current_chunk a)
                   - Z.of_nat (_estimate_chunks_for_overlap
                                 (current_chunk a) chunk_overlap separator)) in
        let kept := slice (current_chunk a) overlap_start (len (current_chunk a)) in
        mkAcc (chunks a ++ [join separator (current_chunk a)])
              kept
              (sum_Z (map (fun s => len separator + len s) kept) - len separator)
      else a in
    mkAcc (chunks a) (current_chunk a ++ [piece]) (current_size a + split_size).

Definition chunk_loop (chunk_size chunk_overlap : Z) (separator : str)
  (splits : list str) : acc :=
  fold_left (chunk_step chunk_size chunk_overlap separator) splits
            (mkAcc [] [] 0).

(** After the loop: [if current_chunk: chunks.append(...)], then
    [return chunks]. *)
Definition emit_last (separator : str) (a : acc) : list str :=
  if truthy (current_chunk a)
  then chunks a ++ [join separator (current_chunk a)]
  else chunks a.

Definition chunk_text (text : str) (chunk_size chunk_overlap : Z)
  (separator : str) : result (list str) :=
  if negb (truthy text) then Ok []
  else
    match split text separator with
    | Raise e => Raise e
    | Ok splits =>
        if (length splits =? 1)%nat
        then _chunk_text_by_chars text chunk_size chunk_overlap
        else
          Ok (emit_last separator
                (chunk_loop chunk_size chunk_overlap separator splits))
    end.

Definition s2l (s : string) : str := list_ascii_of_string s.

(** The default separator of [chunk_text], a line feed. *)
Definition newline : str := [ascii_of_nat 10].

(** ** rag/embeddings.py *)

Local Open Scope float_scope.

(** [np.dot] on two one-dimensional arrays of equal length, accumulated from
    the left. *)
Definition np_dot (v1 v2 : list float) : float :=
  fold_left (fun s p => s + fst p * snd p) (combine v1 v2) 0.

(** [np.linalg.norm] of a one-dimensional array: the square root of the dot
    product of the array with itself. *)
Definition np_norm (v : list float) : float := sqrt (np_dot v v).

(** [v1 - v2] on arrays of equal length. *)
Definition np_sub (v1 v2 : list float) : list float :=
  map (fun p => fst p - snd p) (combine v1 v2).

Definition cosine_similarity (vec1 vec2 : list float) : float :=
  if negb (truthy vec1) || negb (truthy vec2)
     || negb (length vec1 =? length vec2)%nat
  then 0
  else
    let dot_product := np_dot vec1 vec2 in
    let norm_v1 := np_norm vec1 in
    let norm_v2 := np_norm vec2 in
    if (norm_v1 =? 0) || (norm_v2 =? 0) then 0
    else dot_product / (norm_v1 * norm_v2).

Definition euclidean_distance (vec1 vec2 : list float) : float :=
  if negb (truthy vec1) || negb (truthy vec2)
     || negb (length vec1 =? length vec2)%nat
  then infinity
  else np_norm (np_sub vec1 vec2).

Local Close Scope float_scope.

(** ** llm/openai.py *)

Module OpenAIProvider.

(** A chat completion: the [message.content] of each choice ([None] when
    the API sent no content). *)
Record completion : Type := {
  choices : list (option str)
}.

(** An embeddings response: the [embedding] of each item of [data]. *)
Record embeddings_response : Type := {
  data : list (list float)
}.

(** The remote API.  [chat n] and [embed n] are what the [n]-th request
    this process sends would come back with, had it that kind. *)
Record client : Type := {
  chat : nat -> result completion;
  embed : nat -> result embeddings_response
}.

(** What a call leaves behind: the number of requests sent so far and the
    arguments of [time.sleep], oldest first. *)
Record world : Type := mkWorld {
  requests : nat;
  slept : list Z
}.

Definition start : world := mkWorld 0 [].

Record t : Type := mkProvider {
  api : client;
  max_retries : Z;
  retry_delay : Z
}.

(** [__init__] *)
Definition init (c : client) : t := mkProvider c 3 1.

Definition sent (w : world) : world := mkWorld (S (requests w)) (slept w).

Definition sleep (d : Z) (w : world) : world :=
  mkWorld (requests w) (slept w ++ [d]).

(** [response.choices[0].message.content or ""], after the guard on an
    empty [choices]. *)
Definition first_content (r : completion) : str :=
  match choices r with
  | [] => []
  | c :: _ => match c with
              | Some s => s
              | None => []
              end
  end.

(** The body shared by [generate] and [generate_with_history]: the loop
    [for attempt in range(self.max_retries)].  [None] is Python's [None],
    returned when the loop runs out without a [return]. *)
Fixpoint attempt_loop (self : t) (attempts : list Z) (w : world)
  : option str * world :=
  match attempts with
  | [] => (None, w)
  | attempt :: rest =>
      match chat (api self) (requests w) with
      | Ok response => (Some (first_content response), sent w)
      | Raise _ =>
          if attempt <? max_retries self - 1
          then attempt_loop self rest
                 (sleep (retry_delay self * 2 ^ attempt) (sent w))
          else (Some [], sent w)
      end
  end.

Definition attempts_of (self : t) : list Z :=
  match range 0 (max_retries self) 1 with
  | Ok l => l
  | Raise _ => []
  end.

(** The prompt and the sampling options only shape the request; the
    outcome of the request is the client's. *)
Definition generate (self : t) (prompt : str) (w : world)
  : option str * world :=
  attempt_loop self (attempts_of self) w.

Definition generate_with_history (self : t) (messages : list (str * str))
  (w : world) : option str * world :=
  attempt_loop self (attempts_of self) w.

(** [response.data[0].embedding] inside [try]; any exception, the
    [IndexError] of an empty [data] included, gives [[]]. *)
Definition get_embedding (self : t) (text : str) (w : world)
  : list float * world :=
  match embed (api self) (requests w) with
  | Ok response =>
      match data response with
      | e :: _ => (e, sent w)
      | [] => ([], sent w)
      end
  | Raise _ => ([], sent w)
  end.

(** A client whose first request fails and whose later requests succeed. *)
Definition flaky : client := {|
  chat n :=
    if (n =? 0)%nat then Raise BackendError
    else Ok {| choices := [Some (s2l "ok")] |};
  embed n :=
    if (n =? 0)%nat then Raise BackendError
    else Ok {| data := [[1%float; 2%float]] |}
|}.

End OpenAIProvider.

(** ** rag/vector_store *)

Inductive value : Type :=
| VStr (s : string)
| VInt (z : Z).

Abbreviation meta := (gmap string value).

(** The dictionary [collection.query] returns. *)
Record query_result : Type := mkQueryResult {
  documents : option (list (list str));
  metadatas : option (list (list meta));
  ids : option (list (list string));
  distances : option (list (list float))
}.

(** One formatted search result, with the keys [text], [metadata], [id] and
    [score]. *)
Record hit : Type := mkHit {
  hit_text : str;
  hit_metadata : meta;
  hit_id : option string;
  hit_score : option float
}.

(** The part of a chromadb collection the store calls.  Every operation
    returns its outcome and the collection afterwards. *)
Class Collection (C : Type) : Type := {
  coll_add : list str -> list meta -> list string ->
             option (list (list float)) -> C -> result unit * C;
  coll_query : str -> Z -> option meta -> C -> result query_result * C;
  coll_get : meta -> C -> result (list string) * C;
  coll_delete : list string -> C -> result unit * C
}.

(** The capability set of [BaseVectorStore], as the retriever uses it. *)
Class VectorStore (S : Type) : Type := {
  vs_add_texts : list str -> option (list meta) -> option (list string) ->
                 S -> result (list string) * S;
  vs_similarity_search : str -> Z -> option meta -> S -> result (list hit) * S;
  vs_delete : option (list string) -> option meta -> S -> result bool * S;
  vs_persist : S -> result bool * S
}.

(** Truthiness of an optional sequence and of an optional dictionary. *)
Definition truthy_opt {A : Type} (o : option (list A)) : bool :=
  match o with
  | Some l => truthy l
  | None => false
  end.

Definition truthy_dict (o : option meta) : bool :=
  match o with
  | Some m => negb (bool_decide (m = ∅))
  | None => false
  end.

Module ChromaVectorStore.

Section Store.
Context {C : Type} `{Collection C}.

(** The store: its collection and the UUIDs [uuid.uuid4()] is still to
    hand out. *)
Record t : Type := mkStore {
  collection : C;
  uuid4 : nat -> string;
  uuids_used : nat
}.

Definition with_collection (self : t) (c : C) : t :=
  mkStore c (uuid4 self) (uuids_used self).

Definition add_texts (texts : list str) (metadatas : option (list meta))
  (ids : option (list string)) (embeddings : option (list (list float)))
  (self : t) : list string * t :=
  if negb (truthy texts) then ([], self)
  else
    let '(ids, self) :=
      match ids with
      | Some l => (l, self)
      | None =>
          (map (fun k => uuid4 self (uuids_used self + k)%nat)
               (seq 0 (length texts)),
           mkStore (collection self) (uuid4 self)
                   (uuids_used self + length texts))
      end in
    let metadatas :=
      match metadatas with
      | Some l => l
      | None => map (fun _ => (∅ : meta)) texts
      end in
    match coll_add texts metadatas ids embeddings (collection self) with
    | (Ok _, c) => (ids, with_collection self c)
    | (Raise _, c) => ([], with_collection self c)
    end.

(** [x[0][i] if x and x[0] else default] *)
Definition column {A : Type} (x : option (list (list A))) (i : nat)
  : result (option A) :=
  match x with
  | Some (row :: _) =>
      if truthy row
      then match nth_error row i with
           | Some a => Ok (Some a)
           | None => Raise IndexError
           end
      else Ok None
  | _ => Ok None
  end.

Definition format_hit (results : query_result) (i : nat) (doc : str)
  : result hit :=
  match column (metadatas results) i with
  | Raise e => Raise e
  | Ok metadata =>
      match column (ids results) i with
      | Raise e => Raise e
      | Ok id =>
          match column (distances results) i with
          | Raise e => Raise e
          | Ok score =>
              Ok (mkHit doc (default ∅ metadata) id score)
          end
      end
  end.

(** The loop [for i, doc in enumerate(results["documents"][0])]. *)
Fixpoint format_loop (results : query_result) (i : nat) (docs : list str)
  : result (list hit) :=
  match docs with
  | [] => Ok []
  | doc :: rest =>
      match format_hit results i doc with
      | Raise e => Raise e
      | Ok h =>
          match format_loop results (S i) rest with
          | Raise e => Raise e
          | Ok hs => Ok (h :: hs)
          end
      end
  end.

Definition similarity_search (query : str) (k : Z) (filter : option meta)
  (self : t) : list hit * t :=
  match coll_query query k filter (collection self) with
  | (Raise _, c) => ([], with_collection self c)
  | (Ok results, c) =>
      let formatted_results :=
        match documents results with
        | Some (docs :: _) =>
            if truthy docs then format_loop results 0 docs else Ok []
        | _ => Ok []
        end in
      match formatted_results with
      | Ok hs => (hs, with_collection self c)
      | Raise _ => ([], with_collection self c)
      end
  end.

Definition delete (ids : option (list string)) (filter : option meta)
  (self : t) : bool * t :=
  if truthy_opt ids then
    match coll_delete (default [] ids) (collection self) with
    | (Ok _, c) => (true, with_collection self c)
    | (Raise _, c) => (false, with_collection self c)
    end
  else if truthy_dict filter then
    match coll_get (default ∅ filter) (collection self) with
    | (Raise _, c) => (false, with_collection self c)
    | (Ok found, c) =>
        if truthy found then
          match coll_delete found c with
          | (Ok _, c) => (true, with_collection self c)
          | (Raise _, c) => (false, with_collection self c)
          end
        else (true, with_collection self c)
    end
  else (true, self).

Definition persist (self : t) : bool * t := (true, self).

#[global] Instance vector_store : VectorStore t := {
  vs_add_texts texts metadatas ids self :=
    let '(r, s) := add_texts texts metadatas ids None self in (Ok r, s);
  vs_similarity_search query k filter self :=
    let '(r, s) := similarity_search query k filter self in (Ok r, s);
  vs_delete ids filter self :=
    let '(r, s) := delete ids filter self in (Ok r, s);
  vs_persist self :=
    let '(r, s) := persist self in (Ok r, s)
}.
End Store.

Arguments t C : clear implicits.

End ChromaVectorStore.

(** ** rag/retriever.py *)

Module DocumentRetriever.

(** The calls the retriever makes on its vector store, in order. *)
Inductive call : Type :=
| CallSearch (k : Z)
| CallAddTexts
| CallDelete
| CallPersist.

Section Retriever.
Context {S : Type} `{VectorStore S}.

Record t : Type := mkRetriever {
  vector_store : option S;
  top_k : Z;
  calls : list call
}.

(** [__init__] with a store given, or with none (the default store could
    not be created). *)
Definition init (vector_store : option S) (top_k : Z) : t :=
  mkRetriever vector_store top_k [].

Definition called (self : t) (c : call) (s : S) : t :=
  mkRetriever (Some s) (top_k self) (calls self ++ [c]).

(** [top_k or self.top_k] *)
Definition effective_top_k (self : t) (top_k' : option Z) : Z :=
  match top_k' with
  | Some k => if k =? 0 then top_k self else k
  | None => top_k self
  end.

Definition retrieve (query : str) (top_k' : option Z)
  (filter : option meta) (self : t) : list hit * t :=
  match vector_store self with
  | None => ([], self)
  | Some s =>
      let k := effective_top_k self top_k' in
      match vs_similarity_search query k filter s with
      | (Ok results, s) => (results, called self (CallSearch k) s)
      | (Raise _, s) => ([], called self (CallSearch k) s)
      end
  end.

Definition add_documents (texts : list str)
  (metadatas : option (list meta)) (ids : option (list string))
  (self : t) : list string * t :=
  match vector_store self with
  | None => ([], self)
  | Some s =>
      match vs_add_texts texts metadatas ids s with
      | (Raise _, s) => ([], called self CallAddTexts s)
      | (Ok doc_ids, s) =>
          let self := called self CallAddTexts s in
          match vs_persist s with
          | (Ok _, s) => (doc_ids, called self CallPersist s)
          | (Raise _, s) => ([], called self CallPersist s)
          end
      end
  end.

Definition delete_documents (ids : option (list string))
  (filter : option meta) (self : t) : bool * t :=
  match vector_store self with
  | None => (false, self)
  | Some s =>
      match vs_delete ids filter s with
      | (Raise _, s) => (false, called self CallDelete s)
      | (Ok success, s) =>
          let self := called self CallDelete s in
          if success then
            match vs_persist s with
            | (Ok _, s) => (success, called self CallPersist s)
            | (Raise _, s) => (false, called self CallPersist s)
            end
          else (success, self)
      end
  end.
End Retriever.

Arguments t S : clear implicits.

End DocumentRetriever.

(** ** rag/document_processor.py *)

Module DocumentProcessor.

(** A [pathlib.Path], with what the processor reads off it, and what the
    file system answers for it: whether it exists and what [f.read()]
    gives. *)
Record path : Type := {
  path_str : string;
  suffix : string;
  name : string;
  exists_ : bool;
  read : result str
}.

Record document : Type := mkDocument {
  text : str;
  metadata : meta
}.

Record t : Type := mkProcessor {
  chunk_size : Z;
  chunk_overlap : Z
}.

Definition init : t := mkProcessor 1000 200.

Definition lower_ascii (c : ascii) : ascii :=
  let n := nat_of_ascii c in
  if ((65 <=? n) && (n <=? 90))%nat then ascii_of_nat (n + 32) else c.

Fixpoint lower (s : string) : string :=
  match s with
  | EmptyString => EmptyString
  | String c s' => String (lower_ascii c) (lower s')
  end.

Definition supported : list string :=
  [".txt"; ".md"; ".py"; ".sql"; ".yml"; ".yaml"; ".json"]%string.

Definition _process_text_file (self : t) (file_path : path)
  (metadata' : option meta) : list document :=
  match read file_path with
  | Raise _ => []
  | Ok content =>
      let base_metadata : meta :=
        <["file_name" := VStr (name file_path)]>
          (<["file_type" := VStr (lower (suffix file_path))]>
             (<["source" := VStr (path_str file_path)]> ∅)) in
      let base_metadata :=
        if truthy_dict metadata'
        then default ∅ metadata' ∪ base_metadata
        else base_metadata in
      match chunk_text content (chunk_size self) (chunk_overlap self)
              newline with
      | Raise _ => []
      | Ok chunks =>
          imap (fun i chunk =>
                  mkDocument chunk
                    (<["chunk_count" := VInt (len chunks)]>
                       (<["chunk_index" := VInt (Z.of_nat i)]>
                          base_metadata)))
               chunks
      end
  end.

Definition process_file (self : t) (file_path : path)
  (metadata' : option meta) : list document :=
  if negb (exists_ file_path) then []
  else
    let file_type := lower (suffix file_path) in
    if bool_decide (file_type ∈ supported)
    then _process_text_file self file_path metadata'
    else [].

End DocumentProcessor.

(** ** An in-memory collection

    A stand-in for a chromadb collection, on which the store and the
    retriever can be run.  Entries are kept in insertion order.  A query
    returns the first [n_results] entries that match the filter, and raises
    when [n_results] is not positive; [get] returns the ids of the entries
    that match; [delete] removes the entries with the given ids. *)

Module MemoryCollection.

Record entry : Type := mkEntry {
  entry_id : string;
  entry_text : str;
  entry_meta : meta
}.

#[global] Instance value_eq_dec : EqDecision value.
Proof. solve_decision. Defined.

Definition matches (cond : option meta) (e : entry) : bool :=
  match cond with
  | Some m => bool_decide (m ⊆ entry_meta e)
  | None => true
  end.

Definition query (n_results : Z) (cond : option meta) (c : list entry)
  : result query_result :=
  if n_results <=? 0 then Raise BackendError
  else
    let found := firstn (Z.to_nat n_results) (List.filter (matches cond) c) in
    Ok (mkQueryResult (Some [map entry_text found])
                      (Some [map entry_meta found])
                      (Some [map entry_id found])
                      (Some [map (fun _ => 0%float) found])).

Fixpoint add_entries (texts : list str) (metadatas : list meta)
  (ids : list string) : list entry :=
  match texts, metadatas, ids with
  | text :: texts, m :: metadatas, id :: ids =>
      mkEntry id text m :: add_entries texts metadatas ids
  | _, _, _ => []
  end.

#[global] Instance collection : Collection (list entry) := {
  coll_add texts metadatas ids embeddings c :=
    (Ok tt, c ++ add_entries texts metadatas ids);
  coll_query q n_results cond c := (query n_results cond c, c);
  coll_get cond c :=
    (Ok (map entry_id (List.filter (matches (Some cond)) c)), c);
  coll_delete ids c :=
    (Ok tt, List.filter (fun e => negb (bool_decide (entry_id e ∈ ids))) c)
}.

End MemoryCollection.

(** A store and a retriever over an in-memory collection of two
    documents. *)
Module Fixture.

Definition uuids (n : nat) : string := String (ascii_of_nat (97 + n)) "-uuid".

Definition two_docs : list MemoryCollection.entry :=
  [ MemoryCollection.mkEntry "a" (s2l "alpha") {[ "source" := VStr "x.txt" ]};
    MemoryCollection.mkEntry "b" (s2l "beta") {[ "source" := VStr "y.txt" ]} ].

Definition store : ChromaVectorStore.t (list MemoryCollection.entry) :=
  ChromaVectorStore.mkStore two_docs uuids 0.

Definition retriever
  : DocumentRetriever.t (ChromaVectorStore.t (list MemoryCollection.entry)) :=
  DocumentRetriever.init (Some store) 4.

Definition notes_txt : DocumentProcessor.path := {|
  DocumentProcessor.path_str := "docs/notes.TXT";
  DocumentProcessor.suffix := ".TXT";
  DocumentProcessor.name := "notes.TXT";
  DocumentProcessor.exists_ := true;
  DocumentProcessor.read := Ok (s2l "one" ++ newline ++ s2l "two")
|}.

End Fixture.

(** ** utils/helpers.py *)

(** [f"{text[:max_length-3]}..."] when the text is longer than
    [max_length]. *)
Definition truncate_text (text : str) (max_length : Z) : str :=
  if len text <=? max_length then text
  else slice text 0 (max_length - 3) ++ s2l "...".

(** ** rag/chunking.py, the other modes *)

Definition chunk_by_tokens (text : str) (max_tokens overlap_tokens : Z)
  : result (list str) :=
  chunk_text text (max_tokens * 4) (overlap_tokens * 4) newline.

(** [splits[i] if i < len(splits) else ""], for an index that is not
    negative. *)
Definition item_or_empty (splits : list str) (i : Z) : str :=
  if i <? len splits then nth (Z.to_nat i) splits [] else [].

(** [prefix + header + content + suffix] at index [i]. *)
Definition section_at (splits : list str) (i : Z) : str :=
  item_or_empty splits i ++ item_or_empty splits (i + 1)
  ++ item_or_empty splits (i + 2) ++ item_or_empty splits (i + 3).

(** What a closed chunk hands over to the next one:
    [current_chunk[-overlap_size:] if overlap_size > 0 else ""] with
    [overlap_size = min(len(current_chunk), chunk_overlap)]. *)
Definition carry_over (chunk_overlap : Z) (current_chunk : str) : str :=
  let overlap_size := Z.min (len current_chunk) chunk_overlap in
  if overlap_size >? 0
  then slice current_chunk (- overlap_size) (len current_chunk)
  else [].

(** One iteration of the loop of [chunk_markdown] over a section; the
    state is [(chunks, current_chunk)]. *)
Definition markdown_step (chunk_size chunk_overlap : Z)
  (st : list str * str) (section : str) : list str * str :=
  let '(chunks, current_chunk) := st in
  let '(chunks, current_chunk) :=
    if truthy current_chunk
       && (len current_chunk + len section >? chunk_size)
    then (chunks ++ [current_chunk], carry_over chunk_overlap current_chunk)
    else (chunks, current_chunk) in
  (chunks, current_chunk ++ section).

(** The sections the loop visits: one for each index of
    [range(0, len(splits), 4)]. *)
Definition markdown_sections (splits : list str) : list str :=
  match range 0 (len splits) 4 with
  | Ok indices => map (section_at splits) indices
  | Raise _ => []
  end.

(** [chunk_markdown] after the call of [re.split]: [splits] is the list
    that call returned. *)
Definition chunk_markdown_splits (splits : list str)
  (chunk_size chunk_overlap : Z) : list str :=
  let '(chunks, current_chunk) :=
    fold_left (markdown_step chunk_size chunk_overlap)
              (markdown_sections splits) ([], []) in
  if truthy current_chunk then chunks ++ [current_chunk] else chunks.

(** [re_split] stands for [re.split(header_pattern, _)] of Python's [re]
    module. *)
Definition chunk_markdown (re_split : str -> list str) (text : str)
  (chunk_size chunk_overlap : Z) : list str :=
  chunk_markdown_splits (re_split text) chunk_size chunk_overlap.

(** ** rag/embeddings.py, the embedding provider *)

(** What [EmbeddingProvider] asks of its [llm_provider]: [get_embedding],
    which may raise. *)
Class Embedder (P : Type) : Type := {
  llm_get_embedding : str -> P -> result (list float) * P
}.

(** The OpenAI provider with the state of its client. *)
#[global] Instance openai_embedder
  : Embedder (OpenAIProvider.t * OpenAIProvider.world) := {
  llm_get_embedding text p :=
    let '(e, w) := OpenAIProvider.get_embedding (fst p) text (snd p) in
    (Ok e, (fst p, w))
}.

Module EmbeddingProvider.

Section Provider.
Context {P : Type} `{Embedder P}.

(** The loop [for text in texts: embeddings.append(...)], up to the first
    exception. *)
Fixpoint embed_each (texts : list str) (p : P)
  : result (list (list float)) * P :=
  match texts with
  | [] => (Ok [], p)
  | text :: rest =>
      match llm_get_embedding text p with
      | (Raise e, p) => (Raise e, p)
      | (Ok embedding, p) =>
          match embed_each rest p with
          | (Ok embeddings, p) => (Ok (embedding :: embeddings), p)
          | (Raise e, p) => (Raise e, p)
          end
      end
  end.

Definition get_embeddings (texts : list str) (p : P)
  : list (list float) * P :=
  if negb (truthy texts) then ([], p)
  else
    match embed_each texts p with
    | (Ok embeddings, p) => (embeddings, p)
    | (Raise _, p) => (map (fun _ => []) texts, p)
    end.

Definition get_embedding (text : str) (p : P) : list float * P :=
  match llm_get_embedding text p with
  | (Ok embedding, p) => (embedding, p)
  | (Raise _, p) => ([], p)
  end.
End Provider.

End EmbeddingProvider.

(** A provider that embeds one text and raises from then on; its state
    tells whether it has been called. *)
Definition embeds_once : Embedder bool := {|
  llm_get_embedding := fun (text : str) (called : bool) =>
    if called then (Raise BackendError, called) else (Ok [1%float], true)
|}.

(** ** rag/document_processor.py, directories *)

(** A directory as the processor sees it: whether the path exists and is a
    directory, the files [os.walk] yields in order, each with its path
    relative to the directory, and the entries [iterdir] yields, each with
    the answer of [is_file]. *)
Record directory : Type := {
  dir_exists : bool;
  is_dir : bool;
  walk : list (DocumentProcessor.path * string);
  iterdir : list (DocumentProcessor.path * bool)
}.

(** [ft.lower() if ft.startswith('.') else f'.{ft.lower()}'] *)
Definition normalize_file_type (ft : string) : string :=
  match ft with
  | String "."%char _ => DocumentProcessor.lower ft
  | _ => String "."%char (DocumentProcessor.lower ft)
  end.

(** [metadata.copy() if metadata else {}], then the [relative_path] key. *)
Definition file_metadata (metadata : option meta) (relative_path : string)
  : meta :=
  <["relative_path" := VStr relative_path]>
    (if truthy_dict metadata then default ∅ metadata else ∅).

Definition process_directory (self : DocumentProcessor.t) (d : directory)
  (file_types : option (list string)) (recursive : bool)
  (metadata : option meta) : list DocumentProcessor.document :=
  if negb (dir_exists d) || negb (is_dir d) then []
  else
    let file_types :=
      map normalize_file_type
          (default DocumentProcessor.supported file_types) in
    if recursive then
      concat
        (map (fun entry : DocumentProcessor.path * string =>
                let file_path := fst entry in
                if bool_decide
                     (DocumentProcessor.lower (DocumentProcessor.suffix file_path)
                      ∈ file_types)
                then DocumentProcessor.process_file self file_path
                       (Some (file_metadata metadata (snd entry)))
                else [])
             (walk d))
    else
      concat
        (map (fun entry : DocumentProcessor.path * bool =>
                let file_path := fst entry in
                if snd entry
                   && bool_decide
                        (DocumentProcessor.lower
                           (DocumentProcessor.suffix file_path)
                         ∈ file_types)
                then DocumentProcessor.process_file self file_path
                       (Some (file_metadata metadata
                                (DocumentProcessor.name file_path)))
                else [])
             (iterdir d)).

(** ** core/agent.py *)

(** A chat message, [{"role": ..., "content": ...}].  The content is what
    the provider returned, which may be Python's [None]. *)
Record message : Type := mkMessage {
  role : str;
  content : option str
}.

(** What the agent asks of its [llm]. *)
Class LLM (L : Type) : Type := {
  llm_generate : str -> L -> option str * L;
  llm_generate_with_history : list message -> L -> option str * L
}.

#[global] Instance openai_llm
  : LLM (OpenAIProvider.t * OpenAIProvider.world) := {
  llm_generate prompt p :=
    let '(r, w) := OpenAIProvider.generate (fst p) prompt (snd p) in
    (r, (fst p, w));
  llm_generate_with_history messages p :=
    let '(r, w) :=
      OpenAIProvider.generate_with_history (fst p)
        (map (fun m => (role m, default [] (content m))) messages) (snd p) in
    (r, (fst p, w))
}.

Module DataAgent.

Section Agent.
Context {L S : Type} `{LLM L} `{VectorStore S}.

Record t : Type := mkAgent {
  llm : L;
  retriever : DocumentRetriever.t S;
  conversation_history : list message
}.

Definition init (llm : L) (retriever : DocumentRetriever.t S) : t :=
  mkAgent llm retriever [].

Definition user (text : str) : message := mkMessage (s2l "user") (Some text).

Definition assistant (response : option str) : message :=
  mkMessage (s2l "assistant") response.

(** The context of a query: the texts of the retrieved documents joined on
    a blank line, or [""] without retrieval or without documents. *)
Definition retrieve_context (query : str) (use_rag : bool)
  (r : DocumentRetriever.t S) : str * DocumentRetriever.t S :=
  if use_rag then
    let '(documents, r) := DocumentRetriever.retrieve query None None r in
    if truthy documents
    then (join (newline ++ newline) (map hit_text documents), r)
    else ([], r)
  else ([], r).

Definition _generate_prompt_with_context (query context : str) : str :=
  s2l "You are NeuralFlake, a Data Engineering assistant that helps with analysis and suggestions."
  ++ newline
  ++ s2l "Please use the following context to answer the query."
  ++ newline ++ newline ++ s2l "CONTEXT:" ++ newline ++ context
  ++ newline ++ newline ++ s2l "QUERY:" ++ newline ++ query
  ++ newline ++ newline
  ++ s2l "Provide a helpful, accurate, and concise response based on the context provided.".

Definition query (query : str) (use_rag : bool) (self : t)
  : option str * t :=
  let history := conversation_history self ++ [user query] in
  let '(context, r) := retrieve_context query use_rag (retriever self) in
  let prompt :=
    if truthy context then _generate_prompt_with_context query context
    else query in
  let '(response, l) := llm_generate prompt (llm self) in
  (response, mkAgent l r (history ++ [assistant response])).

Definition system_content : str :=
  s2l "You are NeuralFlake, a Data Engineering assistant that helps with analysis and suggestions."
  ++ newline
  ++ s2l "You provide helpful, accurate, and concise responses."
  ++ newline.

(** [_prepare_chat_messages], reading [self.conversation_history]. *)
Definition _prepare_chat_messages (history : list message)
  (text context : str) : list message :=
  let system :=
    if truthy context
    then system_content ++ newline
         ++ s2l "Please use the following context for your responses:"
         ++ newline ++ context
    else system_content in
  let earlier := if truthy history then slice history 0 (-1) else [] in
  [mkMessage (s2l "system") (Some system)] ++ earlier ++ [user text].

Definition chat (text : str) (use_rag : bool) (self : t) : option str * t :=
  let history := conversation_history self ++ [user text] in
  let '(context, r) := retrieve_context text use_rag (retriever self) in
  let messages := _prepare_chat_messages history text context in
  let '(response, l) := llm_generate_with_history messages (llm self) in
  (response, mkAgent l r (history ++ [assistant response])).

Definition clear_conversation (self : t) : t :=
  mkAgent (llm self) (retriever self) [].
End Agent.

Arguments t L S : clear implicits.

End DataAgent.

(** ** More inputs to run the code on *)

Module Fixture2.

(** A collection whose answer has two documents and a single id. *)
Definition ragged : Collection unit := {|
  coll_add := fun _ _ _ _ c => (Ok tt, c);
  coll_query := fun _ _ _ c =>
    (Ok (mkQueryResult (Some [[s2l "alpha"; s2l "beta"]]) None
                       (Some [["a"%string]]) None), c);
  coll_get := fun _ c => (Ok [], c);
  coll_delete := fun _ c => (Ok tt, c)
|}.

Definition ragged_store : ChromaVectorStore.t unit :=
  ChromaVectorStore.mkStore tt Fixture.uuids 0.

Definition logo_png : DocumentProcessor.path := {|
  DocumentProcessor.path_str := "docs/logo.png";
  DocumentProcessor.suffix := ".png";
  DocumentProcessor.name := "logo.png";
  DocumentProcessor.exists_ := true;
  DocumentProcessor.read := Ok (s2l "not text")
|}.

(** A directory with a text file and a picture. *)
Definition docs_dir : directory := {|
  dir_exists := true;
  is_dir := true;
  walk := [(Fixture.notes_txt, "notes.TXT"); (logo_png, "logo.png")];
  iterdir := [(Fixture.notes_txt, true); (logo_png, true)]
|}.

(** A directory with a picture only. *)
Definition pictures_dir : directory := {|
  dir_exists := true;
  is_dir := true;
  walk := [(logo_png, "logo.png")];
  iterdir := [(logo_png, true)]
|}.

(** An agent over the OpenAI provider and the in-memory store. *)
Definition agent
  : DataAgent.t (OpenAIProvider.t * OpenAIProvider.world)
                (ChromaVectorStore.t (list MemoryCollection.entry)) :=
  DataAgent.init
    (OpenAIProvider.init OpenAIProvider.flaky, OpenAIProvider.start)
    Fixture.retriever.

End Fixture2.

(** ** A store that buffers its writes

    An implementation of [BaseVectorStore] on which a call of [persist]
    shows in the state: [add_texts] and [delete] change the documents held
    in memory only, and [persist] copies them to disk.  Documents are
    stood for by their ids.  [delete] reports [False], and deletes nothing,
    when it is given no ids or an id the store does not hold. *)

Module BufferedStore.

Record t : Type := mkBuffered {
  on_disk : list string;
  in_memory : list string
}.

Definition add_texts (texts : list str) (metadatas : option (list meta))
  (ids : option (list string)) (self : t) : result (list string) * t :=
  let ids := default (map (fun _ => "doc"%string) texts) ids in
  (Ok ids, mkBuffered (on_disk self) (in_memory self ++ ids)).

Definition delete (ids : option (list string)) (filter : option meta)
  (self : t) : result bool * t :=
  match ids with
  | Some l =>
      if forallb (fun i => bool_decide (i ∈ in_memory self)) l
      then (Ok true,
            mkBuffered (on_disk self)
              (List.filter (fun i => negb (bool_decide (i ∈ l)))
                           (in_memory self)))
      else (Ok false, self)
  | None => (Ok false, self)
  end.

Definition persist (self : t) : result bool * t :=
  (Ok true, mkBuffered (in_memory self) (in_memory self)).

#[global] Instance vector_store : VectorStore t := {
  vs_add_texts := add_texts;
  vs_similarity_search := fun _ _ _ self => (Ok [], self);
  vs_delete := delete;
  vs_persist := persist
}.

(** A retriever over a store that holds [a], not yet written out. *)
Definition retriever : DocumentRetriever.t t :=
  DocumentRetriever.init (Some (mkBuffered [] ["a"%string])) 4.

End BufferedStore.

(** ** Vocabulary of the statements *)

(** [l[lo:hi]] for [b = (lo, hi)] with [lo <= hi <= len(l)]. *)
Definition between {A : Type} (l : list A) (b : nat * nat) : list A :=
  firstn (snd b - fst b) (skipn (fst b) l).

(** How the windows of consecutive chunks lie: the next one starts inside
    the one before it, or right at its end, and ends further on. *)
Definition follows (b b' : nat * nat) : Prop :=
  (fst b <= fst b' <= snd b /\ snd b < snd b')%nat.

(** The state of the separator loop after the segments [seen], by
    position: every closed chunk is the join of a window [seen[lo:hi]] that
    is not empty, the current chunk is [seen[c:]], the windows follow one
    another, and every position of [seen] is in a window or in the current
    chunk. *)
Definition window_invariant (separator : str) (seen : list str) (a : acc)
  : Prop :=
  exists (bounds : list (nat * nat)) (c : nat),
    chunks a = map (fun b => join separator (between seen b)) bounds
    /\ Forall (fun b => (fst b < snd b <= length seen)%nat) bounds
    /\ (c <= length seen)%nat
    /\ current_chunk a = skipn c seen
    /\ (forall j : nat,
          (j < length seen)%nat ->
          (exists b, In b bounds /\ (fst b <= j < snd b)%nat) \/ (c <= j)%nat)
    /\ (forall (i : nat) (b b' : nat * nat),
          bounds !! i = Some b -> bounds !! S i = Some b' -> follows b b')
    /\ (forall b, last bounds = Some b ->
          (fst b <= c <= snd b /\ snd b < length seen)%nat).

(** A conversation made of exchanges: a user message, then the
    assistant's. *)
Fixpoint alternating (history : list message) : Prop :=
  match history with
  | [] => True
  | u :: rest =>
      match rest with
      | [] => False
      | a :: rest' =>
          role u = s2l "user" /\ role a = s2l "assistant" /\ alternating rest'
      end
  end.

(** [sep in text] *)
Fixpoint contains (t sep : str) : bool :=
  startswith t sep
  || match t with
     | [] => false
     | _ :: t' => contains t' sep
     end.

(** The window the character algorithm cuts at its [k]-th step:
    [text[k*stride : k*stride + chunk_size]]. *)
Definition window (text : str) (chunk_size stride : Z) (k : nat) : str :=
  slice text (Z.of_nat k * stride) (Z.of_nat k * stride + chunk_size).

(** The [k]-th value of [range(0, _, stride)]. *)
Definition index_of (stride : Z) (k : nat) : Z := 0 + Z.of_nat k * stride.

(** The step at which the sliding window first reaches the end of a text
    of length [n]. *)
Definition last_step (n chunk_size stride : Z) : nat :=
  Z.to_nat ((n - chunk_size + stride - 1) / stride).

(** The guard at the head of [cosine_similarity] and [euclidean_distance]:
    an empty vector, or two vectors of different lengths. *)
Definition degenerate (vec1 vec2 : list float) : Prop :=
  vec1 = [] \/ vec2 = [] \/ length vec1 <> length vec2.

(** A collection honours [n_results] when the first row of [documents] of
    every answer has at most that many entries. *)
Definition honours_n_results {C : Type} `{Collection C} : Prop :=
  forall query k filter (c : C) results docs rest,
    fst (coll_query query k filter c) = Ok results ->
    documents results = Some (docs :: rest) ->
    len docs <= Z.max 0 k.

(** A store honours [k] when no search returns more than [k] results. *)
Definition honours_k {S : Type} `{VectorStore S} : Prop :=
  forall query k filter (s : S) results s',
    vs_similarity_search query k filter s = (Ok results, s') ->
    len results <= Z.max 0 k.

(** The state of the separator loop after the segments [seen]: the closed
    chunks are joins of runs of consecutive segments, the current chunk is
    the run at the end of [seen], and every segment seen is in one of
    them. *)
Definition loop_invariant (separator : str) (seen : list str) (a : acc)
  : Prop :=
  exists runs : list (list str),
    chunks a = map (join separator) runs
    /\ Forall (fun r => exists l1 l2, seen = l1 ++ r ++ l2) runs
    /\ (exists l, seen = l ++ current_chunk a)
    /\ (forall seg, In seg seen ->
          (exists r, In r runs /\ In seg r) \/ In seg (current_chunk a)).

(** The last [k] elements of a list, [l[-k:]] for [1 <= k]. *)
Definition lastn {A : Type} (k : nat) (l : list A) : list A :=
  skipn (length l - k) l.

(** Consecutive runs of segments overlap as the separator loop makes them:
    each run after the first begins with the tail of the run before it that
    [_estimate_chunks_for_overlap] keeps, followed by at least one new
    segment. *)
Definition carried (separator : str) (chunk_overlap : Z)
  (runs : list (list str)) : Prop :=
  forall (i : nat) (r r' : list str),
    runs !! i = Some r -> runs !! S i = Some r' ->
    exists new,
      new <> []
      /\ r' = lastn (_estimate_chunks_for_overlap r chunk_overlap separator) r
               ++ new.

(** The state of the separator loop between two segments, as to overlap. *)
Definition overlap_invariant (separator : str) (chunk_overlap : Z) (a : acc)
  : Prop :=
  exists runs : list (list str),
    chunks a = map (join separator) runs
    /\ Forall (fun r => r <> []) runs
    /\ carried separator chunk_overlap runs
    /\ (forall r, last runs = Some r ->
          exists new,
            new <> []
            /\ current_chunk a
               = lastn (_estimate_chunks_for_overlap r chunk_overlap separator)
                       r ++ new).

(** [linked P l]: every element of [l] and the one after it are related
    by [P]. *)
Definition linked {A : Type} (P : A -> A -> Prop) (l : list A) : Prop :=
  forall (i : nat) (x y : A), l !! i = Some x -> l !! S i = Some y -> P x y.

(** The vector [OpenAIProvider.get_embedding] makes of the answer to the
    [n]-th request. *)
Definition embedding_at (self : OpenAIProvider.t) (n : nat) : list float :=
  match OpenAIProvider.embed (OpenAIProvider.api self) n with
  | Ok response =>
      match OpenAIProvider.data response with
      | e :: _ => e
      | [] => []
      end
  | Raise _ => []
  end.

(** * Properties *)

(** ** Python runtime *)

Lemma len_nonneg {A : Type} (l : list A) : 0 <= len l.
Proof. unfold len. lia. Qed.

Lemma len_app {A : Type} (l1 l2 : list A) : len (l1 ++ l2) = len l1 + len l2.
Proof. unfold len. rewrite length_app. lia. Qed.

Lemma truthy_false {A : Type} (l : list A) : truthy l = false <-> l = [].
Proof. destruct l; simpl; split; congruence. Qed.

Lemma truthy_true {A : Type} (l : list A) : truthy l = true <-> l <> [].
Proof. destruct l; simpl; split; congruence. Qed.

Lemma clamp_index_min (n j : Z) :
  0 <= n -> 0 <= j -> clamp_index n (Z.min j n) = clamp_index n j.
Proof.
  intros Hn Hj. unfold clamp_index.
  destruct (Z.ltb_spec (Z.min j n) 0), (Z.ltb_spec j 0); lia.
Qed.

Lemma slice_min {A : Type} (l : list A) (i j : Z) :
  0 <= j -> slice l i (Z.min j (len l)) = slice l i j.
Proof.
  intros Hj. unfold slice.
  rewrite clamp_index_min by (auto using len_nonneg). reflexivity.
Qed.

(** A slice with non-negative bounds is a window: drop [i], take [size]. *)
Lemma slice_window {A : Type} (l : list A) (i size : Z) :
  0 <= i -> 0 <= size ->
  slice l i (i + size) = firstn (Z.to_nat size) (skipn (Z.to_nat i) l).
Proof.
  intros Hi Hs. unfold slice, clamp_index.
  destruct (Z.ltb_spec i 0); [lia|].
  destruct (Z.ltb_spec (i + size) 0); [lia|].
  pose proof (len_nonneg l) as Hn. unfold len in *.
  destruct (Z.le_gt_cases (Z.of_nat (length l)) i) as [Hge|Hlt].
  - rewrite !skipn_all2 by lia. now rewrite !firstn_nil.
  - replace (Z.min i (Z.of_nat (length l))) with i by lia.
    destruct (Z.le_gt_cases (i + size) (Z.of_nat (length l))).
    + f_equal. lia.
    + rewrite !firstn_all2; [reflexivity| |]; rewrite length_skipn; lia.
Qed.

Lemma slice_window_length {A : Type} (l : list A) (i size : Z) :
  0 <= i -> 0 <= size -> len (slice l i (i + size)) <= size.
Proof.
  intros Hi Hs. rewrite slice_window by assumption.
  unfold len. rewrite length_firstn. lia.
Qed.

(** ** The character-stride algorithm *)

Section Stride.
Variables (text : str) (chunk_size stride : Z).
Hypothesis Hsize : 0 < chunk_size.
Hypothesis Hstride : 0 < stride.

Local Abbreviation window := (window text chunk_size stride).
Local Abbreviation index_of := (index_of stride).

Lemma stride_loop_step (k : nat) (rest : list Z) :
  stride_loop text chunk_size (index_of k :: rest)
  = if len text <=? Z.of_nat k * stride + chunk_size
    then [window k]
    else window k :: stride_loop text chunk_size rest.
Proof.
  cbn [stride_loop]. unfold index_of, window.
  rewrite !Z.add_0_l, slice_min by lia.
  destruct (Z.leb_spec (len text) (Z.of_nat k * stride + chunk_size)).
  - rewrite Z.min_r by lia. now rewrite Z.eqb_refl.
  - rewrite Z.min_l by lia.
    destruct (Z.eqb_spec (Z.of_nat k * stride + chunk_size) (len text));
      [lia | reflexivity].
Qed.

(** The loop emits one window per index until a window reaches the end
    of the text, which happens at the [d]-th index after [a]. *)
Lemma stride_loop_run (d : nat) :
  forall a m : nat,
    (d < m)%nat ->
    (forall j, (j < d)%nat -> Z.of_nat (a + j) * stride + chunk_size < len text) ->
    len text <= Z.of_nat (a + d) * stride + chunk_size ->
    stride_loop text chunk_size (map index_of (seq a m))
    = map window (seq a (S d)).
Proof.
  induction d as [|d IH]; intros a m Hm Hbefore Hend;
    (destruct m as [|m]; [lia|]); cbn [seq map];
    rewrite stride_loop_step.
  - replace (a + 0)%nat with a in Hend by lia.
    destruct (Z.leb_spec (len text) (Z.of_nat a * stride + chunk_size));
      [reflexivity | lia].
  - pose proof (Hbefore O ltac:(lia)) as H0.
    replace (a + 0)%nat with a in H0 by lia.
    destruct (Z.leb_spec (len text) (Z.of_nat a * stride + chunk_size));
      [lia|].
    f_equal. apply IH.
    + lia.
    + intros j Hj. replace (S a + j)%nat with (a + S j)%nat by lia.
      apply Hbefore. lia.
    + replace (S a + d)%nat with (a + S d)%nat by lia. exact Hend.
Qed.
End Stride.

Lemma last_step_spec (n chunk_size stride : Z) :
  0 < stride -> stride <= chunk_size -> chunk_size < n ->
  let d := Z.of_nat (last_step n chunk_size stride) in
  n <= d * stride + chunk_size
  /\ (d - 1) * stride + chunk_size < n
  /\ d < (n - 0 + stride - 1) / stride.
Proof.
  intros Hs Hle Hn d. subst d. unfold last_step.
  set (q := (n - chunk_size + stride - 1) / stride).
  assert (Hq : stride * q <= n - chunk_size + stride - 1 < stride * (q + 1)).
  { split.
    - apply Z.mul_div_le. lia.
    - rewrite Z.mul_add_distr_l, Z.mul_1_r.
      pose proof (Z.mul_succ_div_gt (n - chunk_size + stride - 1) stride Hs).
      fold q in H. lia. }
  assert (0 <= q) by (apply Z.div_pos; lia).
  rewrite Z2Nat.id by assumption.
  set (c := (n - 0 + stride - 1) / stride).
  assert (Hc : n - 0 + stride - 1 < stride * (c + 1)).
  { rewrite Z.mul_add_distr_l, Z.mul_1_r.
    pose proof (Z.mul_succ_div_gt (n - 0 + stride - 1) stride Hs).
    fold c in H0. lia. }
  repeat split; nia.
Qed.

Lemma chunk_by_chars_short (text : str) (chunk_size chunk_overlap : Z) :
  text <> [] -> len text <= chunk_size ->
  _chunk_text_by_chars text chunk_size chunk_overlap = Ok [text].
Proof.
  intros Hne Hle. unfold _chunk_text_by_chars.
  apply truthy_true in Hne. rewrite Hne. cbn [negb].
  now destruct (Z.leb_spec (len text) chunk_size); [|lia].
Qed.

Lemma stride_of_in_range (chunk_size chunk_overlap : Z) :
  chunk_overlap < chunk_size ->
  stride_of chunk_size chunk_overlap = chunk_size - chunk_overlap.
Proof.
  intros H. unfold stride_of.
  now destruct (Z.leb_spec (chunk_size - chunk_overlap) 0); [lia|].
Qed.

(** On a text longer than [chunk_size] the algorithm returns the windows
    [0 .. last_step]. *)
Lemma chunk_by_chars_long (text : str) (chunk_size chunk_overlap : Z) :
  0 < chunk_size -> 0 <= chunk_overlap < chunk_size ->
  chunk_size < len text ->
  let stride := chunk_size - chunk_overlap in
  _chunk_text_by_chars text chunk_size chunk_overlap
  = Ok (map (window text chunk_size stride)
            (seq 0 (S (last_step (len text) chunk_size stride)))).
Proof.
  intros Hs Ho Hn stride. unfold _chunk_text_by_chars.
  assert (Hne : truthy text = true).
  { destruct text; [unfold len in Hn; cbn in Hn; lia | reflexivity]. }
  rewrite Hne. cbn [negb].
  destruct (Z.leb_spec (len text) chunk_size); [lia|].
  rewrite stride_of_in_range by lia. fold stride.
  unfold range. destruct (Z.eqb_spec stride 0); [lia|].
  destruct (Z.ltb_spec 0 stride); [|lia].
  destruct (last_step_spec (len text) chunk_size stride) as (Hend & Hbefore & Hcount);
    [lia .. |].
  f_equal.
  change (fun k : nat => 0 + Z.of_nat k * stride) with (index_of stride).
  apply stride_loop_run; [lia | lia | lia | intros j Hj | cbn [Nat.add]; lia].
  cbn [Nat.add].
  assert (Z.of_nat j * stride
          <= (Z.of_nat (last_step (len text) chunk_size stride) - 1) * stride)
    by (apply Z.mul_le_mono_nonneg_r; lia).
  lia.
Qed.

(** text[i:] is what is left of the text from [i] on. *)
Lemma window_to_end (text : str) (chunk_size stride : Z) (k : nat) :
  0 < chunk_size -> 0 < stride ->
  len text <= Z.of_nat k * stride + chunk_size ->
  window text chunk_size stride k
  = skipn (Z.to_nat (Z.of_nat k * stride)) text.
Proof.
  intros Hs Hst Hend. unfold window.
  rewrite slice_window by lia.
  apply firstn_all2. rewrite length_skipn. unfold len in Hend. lia.
Qed.

(** C4. Character-stride algorithm.  For a non-empty text, [chunk_size > 0]
    and [0 <= chunk_overlap < chunk_size]: the stride is
    [chunk_size - chunk_overlap]; a text no longer than [chunk_size] comes
    back whole as the only chunk; on a longer text the [k]-th chunk is
    [text[k*stride : k*stride + chunk_size]] and has at most [chunk_size]
    characters, the last chunk runs to the end of the text, and every
    character of the text lies in some chunk, at its offset from that
    chunk's start. *)
Theorem chunk_text_by_chars_windows (text : str) (chunk_size chunk_overlap : Z) :
  text <> [] -> 0 < chunk_size -> 0 <= chunk_overlap < chunk_size ->
  let stride := chunk_size - chunk_overlap in
  stride_of chunk_size chunk_overlap = stride
  /\ (len text <= chunk_size ->
      _chunk_text_by_chars text chunk_size chunk_overlap = Ok [text])
  /\ (chunk_size < len text ->
      exists cs : list str,
        _chunk_text_by_chars text chunk_size chunk_overlap = Ok cs
        /\ (forall (k : nat) (c : str),
               cs !! k = Some c ->
               c = slice text (Z.of_nat k * stride)
                              (Z.of_nat k * stride + chunk_size)
               /\ len c <= chunk_size)
        /\ last cs
           = Some (skipn (Z.to_nat (Z.of_nat (length cs - 1) * stride)) text)
        /\ (forall (p : nat) (ch : ascii),
               text !! p = Some ch ->
               exists (k : nat) (c : str),
                 cs !! k = Some c
                 /\ (k * Z.to_nat stride <= p)%nat
                 /\ c !! (p - k * Z.to_nat stride)%nat = Some ch)).
Proof.
  intros Hne Hs Ho stride.
  split; [apply stride_of_in_range; lia|].
  split; [intros; now apply chunk_by_chars_short|].
  intros Hn.
  set (d := last_step (len text) chunk_size stride).
  exists (map (window text chunk_size stride) (seq 0 (S d))).
  assert (Hst : 0 < stride) by (unfold stride; lia).
  destruct (last_step_spec (len text) chunk_size stride) as (Hend & Hbefore & _);
    [unfold stride; lia .. |]. fold d in Hend, Hbefore.
  split; [now apply chunk_by_chars_long|].
  split; [|split].
  - intros k c Hk. apply list_lookup_fmap_Some in Hk as (k' & -> & Hk').
    apply lookup_seq in Hk' as [-> _]. cbn [Nat.add].
    split; [reflexivity|]. apply slice_window_length; lia.
  - rewrite length_map, length_seq.
    replace (S d - 1)%nat with d by lia.
    rewrite seq_S, map_app. cbn [Nat.add map]. rewrite last_snoc.
    f_equal. now apply window_to_end.
  - intros p ch Hp.
    assert (Hplt : (p < length text)%nat) by (eapply lookup_lt_Some; eauto).
    set (st := Z.to_nat stride).
    assert (Hstn : (0 < st)%nat) by (unfold st; lia).
    set (k := Nat.min (p / st) d).
    assert (Hk1 : (k * st <= p)%nat).
    { pose proof (Nat.Div0.mul_div_le p st).
      assert (k <= p / st)%nat by (unfold k; lia). nia. }
    assert (Hk2 : Z.of_nat p < Z.of_nat k * stride + chunk_size).
    { destruct (Nat.le_gt_cases (p / st) d) as [Hle|Hgt].
      - replace k with (p / st)%nat by (unfold k; lia).
        pose proof (Nat.mul_succ_div_gt p st ltac:(lia)).
        assert (Z.of_nat p < Z.of_nat (st * S (p / st))) by lia.
        rewrite Nat2Z.inj_mul in H0. unfold st in H0 at 1.
        rewrite Z2Nat.id in H0 by lia. unfold stride in *. nia.
      - replace k with d by (unfold k; lia). unfold len in Hend. lia. }
    exists k, (window text chunk_size stride k). split; [|split].
    + change (map ?f ?l) with (f <$> l).
      rewrite list_lookup_fmap, lookup_seq_lt; [reflexivity|].
      unfold k. lia.
    + exact Hk1.
    + unfold window. rewrite slice_window by lia.
      assert (Hoff : Z.to_nat (Z.of_nat k * stride) = (k * st)%nat).
      { unfold st. rewrite Z2Nat.inj_mul, Nat2Z.id by lia. reflexivity. }
      assert (Hst' : Z.of_nat (k * st) = Z.of_nat k * stride).
      { rewrite <- Hoff, Z2Nat.id; [reflexivity | lia]. }
      rewrite Hoff, lookup_take_lt by lia.
      rewrite lookup_drop. replace (k * st + (p - k * st))%nat with p by lia.
      exact Hp.
Qed.

(** ** [str.split] and [str.join] *)

Lemma split_scan_not_nil (sep : str) (t : str) :
  forall skip, split_scan sep skip t <> [].
Proof.
  induction t as [|c t IH]; intros skip; cbn [split_scan]; [discriminate|].
  destruct skip; [|apply IH].
  destruct (startswith (c :: t) sep); [discriminate|].
  destruct (split_scan sep 0 t); discriminate.
Qed.

Lemma startswith_app (t sep : str) :
  startswith t sep = true -> t = sep ++ skipn (length sep) t.
Proof.
  revert t. induction sep as [|a sep IH]; intros [|b t] Hs; cbn in *;
    try reflexivity; try discriminate.
  apply andb_true_iff in Hs as [Hab Hs].
  apply Ascii.eqb_eq in Hab as ->. f_equal. now apply IH.
Qed.

Lemma startswith_prefix (sep rest : str) : startswith (sep ++ rest) sep = true.
Proof.
  induction sep as [|a sep IH]; cbn; [now destruct rest|].
  now rewrite Ascii.eqb_refl.
Qed.

(** Consuming the rest of a separator occurrence is dropping it. *)
Lemma split_scan_skip (sep : str) :
  forall (skip : nat) (t : str),
    (skip <= length t)%nat ->
    split_scan sep skip t = split_scan sep 0 (skipn skip t).
Proof.
  induction skip as [|k IH]; intros t Hk; [reflexivity|].
  destruct t as [|c t]; cbn in Hk; [lia|].
  cbn [split_scan skipn]. apply IH. lia.
Qed.

(** The unfolding of [split_scan] at an occurrence of the separator. *)
Lemma split_scan_at_sep (sep rest : str) :
  sep <> [] ->
  split_scan sep 0 (sep ++ rest) = [] :: split_scan sep 0 rest.
Proof.
  intros Hne. destruct sep as [|a sep]; [congruence|].
  change ((a :: sep) ++ rest) with (a :: (sep ++ rest)).
  cbn [split_scan].
  change (a :: sep ++ rest) with ((a :: sep) ++ rest).
  rewrite startswith_prefix. f_equal.
  rewrite split_scan_skip.
  - cbn [length]. rewrite Nat.sub_succ, Nat.sub_0_r.
    now rewrite skipn_app, skipn_all, Nat.sub_diag.
  - cbn [length]. rewrite length_app. lia.
Qed.

Lemma join_cons (sep p : str) (rest : list str) :
  rest <> [] -> join sep (p :: rest) = p ++ sep ++ join sep rest.
Proof. destruct rest; [congruence | reflexivity]. Qed.

Lemma join_cons_char (sep : str) (c : ascii) (p : str) (rest : list str) :
  join sep ((c :: p) :: rest) = c :: join sep (p :: rest).
Proof. destruct rest; reflexivity. Qed.

(** [sep.join(text.split(sep)) == text] *)
Lemma join_split_scan (sep : str) :
  sep <> [] -> forall t : str, join sep (split_scan sep 0 t) = t.
Proof.
  intros Hne t.
  remember (length t) as n eqn:Hn. revert t Hn.
  induction n as [n IH] using lt_wf_ind. intros t Hn.
  destruct t as [|c t]; [reflexivity|].
  destruct (startswith (c :: t) sep) eqn:Hs.
  - apply startswith_app in Hs. rewrite Hs at 1.
    rewrite split_scan_at_sep by assumption.
    rewrite join_cons by apply split_scan_not_nil.
    cbn [app]. rewrite (IH (length (skipn (length sep) (c :: t)))).
    + now rewrite <- Hs.
    + rewrite length_skipn. destruct sep; [congruence|]. cbn [length] in *. lia.
    + reflexivity.
  - cbn [split_scan]. rewrite Hs.
    pose proof (split_scan_not_nil sep t 0) as Hnil.
    destruct (split_scan sep 0 t) as [|piece rest] eqn:Hsp; [congruence|].
    rewrite join_cons_char, <- Hsp. f_equal.
    apply (IH (length t)); [cbn [length] in Hn; lia | reflexivity].
Qed.

(** The split has a single piece exactly when the separator does not occur
    in the text. *)
Lemma split_scan_single (sep : str) :
  sep <> [] ->
  forall t : str,
    length (split_scan sep 0 t) = 1%nat <-> contains t sep = false.
Proof.
  intros Hne. induction t as [|c t IH].
  - destruct sep; [congruence|]. cbn. split; reflexivity.
  - cbn [split_scan contains].
    destruct (startswith (c :: t) sep) eqn:Hs; cbn [orb].
    + pose proof (split_scan_not_nil sep t (length sep - 1)) as Hnil.
      destruct (split_scan sep (length sep - 1) t); [congruence|].
      cbn [length]. split; [lia | discriminate].
    + rewrite <- IH.
      pose proof (split_scan_not_nil sep t 0) as Hnil.
      destruct (split_scan sep 0 t); [congruence | reflexivity].
Qed.

Lemma join_app (sep : str) (l1 l2 : list str) :
  l1 <> [] -> l2 <> [] ->
  join sep (l1 ++ l2) = join sep l1 ++ sep ++ join sep l2.
Proof.
  intros H1 H2. induction l1 as [|p l1 IH]; [congruence|].
  destruct l1 as [|q l1].
  - cbn [app]. now rewrite join_cons.
  - change ((p :: q :: l1) ++ l2) with (p :: ((q :: l1) ++ l2)).
    rewrite join_cons by discriminate.
    rewrite IH by discriminate.
    rewrite (join_cons sep p (q :: l1)) by discriminate.
    now rewrite <- !app_assoc.
Qed.

Lemma join_prefix_len (sep : str) (l1 l2 : list str) :
  len (join sep l1) <= len (join sep (l1 ++ l2)).
Proof.
  destruct l1 as [|p l1]; [cbn; apply len_nonneg|].
  destruct l2 as [|q l2]; [rewrite app_nil_r; lia|].
  rewrite join_app by discriminate. rewrite !len_app.
  pose proof (len_nonneg sep). pose proof (len_nonneg (join sep (q :: l2))).
  lia.
Qed.

(** ** The separator loop *)

Section SeparatorLoop.
Variables (chunk_size chunk_overlap : Z) (separator : str).

Local Abbreviation step := (chunk_step chunk_size chunk_overlap separator).

(** Empty segments leave the loop variables as they are. *)
Lemma chunk_loop_skips_empty (splits : list str) :
  forall a : acc,
    fold_left step splits a = fold_left step (List.filter truthy splits) a.
Proof.
  induction splits as [|p splits IH]; intros a; [reflexivity|].
  cbn [fold_left List.filter]. destruct p as [|c p]; cbn [truthy].
  - unfold chunk_step at 2. cbn [truthy negb]. apply IH.
  - cbn [fold_left]. apply IH.
Qed.

(** While the segments seen so far, joined, fit in [chunk_size], no chunk
    is closed: the loop only appends to [current_chunk]. *)
Lemma chunk_step_fits (cur : list str) (piece : str) :
  piece <> [] ->
  len (join separator (cur ++ [piece])) <= chunk_size ->
  step (mkAcc [] cur (len (join separator cur))) piece
  = mkAcc [] (cur ++ [piece]) (len (join separator (cur ++ [piece]))).
Proof.
  intros Hp Hfit. unfold chunk_step. cbn [current_chunk current_size chunks].
  apply truthy_true in Hp. rewrite Hp. cbn [negb].
  destruct cur as [|q cur].
  - cbn [truthy andb app join current_chunk current_size chunks].
    f_equal; unfold len; cbn [length]; lia.
  - cbn [truthy andb].
    rewrite join_app in Hfit |- * by discriminate.
    change (join separator [piece]) with piece in Hfit |- *.
    rewrite !len_app in Hfit |- *.
    destruct (Z.gtb_spec (len (join separator (q :: cur))
                          + (len separator + len piece)) chunk_size); [lia|].
    cbn [current_chunk current_size chunks]. f_equal.
    rewrite len_app. lia.
Qed.

Lemma chunk_loop_fits (rest : list str) :
  forall cur : list str,
    Forall (fun s => s <> []) rest ->
    len (join separator (cur ++ rest)) <= chunk_size ->
    fold_left step rest (mkAcc [] cur (len (join separator cur)))
    = mkAcc [] (cur ++ rest) (len (join separator (cur ++ rest))).
Proof.
  induction rest as [|p rest IH]; intros cur Hne Hfit.
  - now rewrite app_nil_r.
  - inversion Hne as [|? ? Hp Hrest]; subst. cbn [fold_left].
    assert (Hcur : cur ++ p :: rest = (cur ++ [p]) ++ rest)
      by now rewrite <- app_assoc.
    rewrite Hcur in Hfit |- *.
    rewrite chunk_step_fits; [now apply IH | assumption |].
    pose proof (join_prefix_len separator (cur ++ [p]) rest). lia.
Qed.
End SeparatorLoop.

Lemma slice_to_end {A : Type} (l : list A) (i : Z) :
  0 <= i -> slice l i (len l) = skipn (Z.to_nat i) l.
Proof.
  intros Hi. unfold slice, clamp_index.
  pose proof (len_nonneg l) as Hn.
  destruct (Z.ltb_spec i 0); [lia|].
  destruct (Z.ltb_spec (len l) 0); [lia|].
  rewrite Z.min_id. unfold len in *.
  destruct (Z.le_gt_cases i (Z.of_nat (length l))).
  - rewrite Z.min_l by lia.
    apply firstn_all2. rewrite length_skipn. lia.
  - rewrite Z.min_r by lia. rewrite !skipn_all2 by lia. apply firstn_nil.
Qed.

Section SeparatorRuns.
Variables (chunk_size chunk_overlap : Z) (separator : str).

Local Abbreviation step := (chunk_step chunk_size chunk_overlap separator).
Local Abbreviation invariant := (loop_invariant separator).

(** What one iteration does to [chunks] and [current_chunk]: it appends the
    segment, after closing the current chunk and keeping a tail of it or
    not. *)
Lemma chunk_step_shape (a : acc) (piece : str) :
  piece <> [] ->
  (chunks (step a piece) = chunks a
   /\ current_chunk (step a piece) = current_chunk a ++ [piece])
  \/ (chunks (step a piece)
      = chunks a ++ [join separator (current_chunk a)]
      /\ exists n : nat,
           current_chunk (step a piece)
           = skipn n (current_chunk a) ++ [piece]).
Proof.
  intros Hp. apply truthy_true in Hp. unfold chunk_step. rewrite Hp.
  cbn [negb].
  destruct (truthy (current_chunk a) && _); cbn [chunks current_chunk].
  - right. split; [reflexivity|].
    eexists. rewrite slice_to_end by lia. reflexivity.
  - left. split; reflexivity.
Qed.

Lemma loop_invariant_step (seen : list str) (a : acc) (piece : str) :
  piece <> [] ->
  invariant seen a -> invariant (seen ++ [piece]) (step a piece).
Proof.
  intros Hp (runs & Hchunks & Hruns & [l Hl] & Hcov).
  assert (Hwiden : Forall (fun r => exists l1 l2, seen ++ [piece] = l1 ++ r ++ l2)
                          runs).
  { eapply Forall_impl; [exact Hruns|].
    intros r (l1 & l2 & ->). exists l1, (l2 ++ [piece]).
    now rewrite <- !app_assoc. }
  destruct (chunk_step_shape a piece Hp) as [[Hc Hcur]|[Hc [n Hcur]]].
  - exists runs. rewrite Hc, Hcur. repeat split.
    + exact Hchunks.
    + exact Hwiden.
    + exists l. rewrite Hl at 1. now rewrite <- app_assoc.
    + intros seg Hin. apply in_app_or in Hin as [Hin|[<-|[]]].
      * destruct (Hcov seg Hin) as [Hr|Hr]; [now left|].
        right. apply in_or_app. now left.
      * right. apply in_or_app. right. now left.
  - exists (runs ++ [current_chunk a]). rewrite Hc, Hcur. repeat split.
    + rewrite map_app, Hchunks. reflexivity.
    + apply Forall_app. split; [exact Hwiden|].
      constructor; [|constructor].
      exists l, [piece]. rewrite Hl at 1. now rewrite <- app_assoc.
    + exists (l ++ firstn n (current_chunk a)).
      rewrite Hl at 1. rewrite <- !app_assoc. f_equal.
      now rewrite app_assoc, firstn_skipn.
    + intros seg Hin. apply in_app_or in Hin as [Hin|[<-|[]]].
      * left. destruct (Hcov seg Hin) as [(r & Hr & Hseg)|Hseg].
        -- exists r. split; [apply in_or_app; now left | exact Hseg].
        -- exists (current_chunk a).
           split; [apply in_or_app; right; now left | exact Hseg].
      * right. apply in_or_app. right. now left.
Qed.

Lemma loop_invariant_fold (segs : list str) :
  Forall (fun s => s <> []) segs ->
  forall (seen : list str) (a : acc),
    invariant seen a -> invariant (seen ++ segs) (fold_left step segs a).
Proof.
  induction 1 as [|piece segs Hp _ IH]; intros seen a Hinv.
  - now rewrite app_nil_r.
  - cbn [fold_left].
    replace (seen ++ piece :: segs) with ((seen ++ [piece]) ++ segs)
      by now rewrite <- app_assoc.
    apply IH. now apply loop_invariant_step.
Qed.

(** The separator loop drops no segment: over non-empty segments, its
    chunks are joins of runs of consecutive segments, and every segment is
    in one of the runs. *)
Theorem chunk_loop_keeps_every_segment (segs : list str) :
  Forall (fun s => s <> []) segs ->
  exists runs : list (list str),
    emit_last separator (chunk_loop chunk_size chunk_overlap separator segs)
    = map (join separator) runs
    /\ Forall (fun r => exists l1 l2, segs = l1 ++ r ++ l2) runs
    /\ (forall seg, In seg segs -> exists r, In r runs /\ In seg r).
Proof.
  intros Hsegs.
  assert (Hstart : invariant [] (mkAcc [] [] 0)).
  { exists []. cbn. repeat split; [constructor | now exists [] | intros ? []]. }
  pose proof (loop_invariant_fold segs Hsegs [] _ Hstart) as Hend.
  cbn [app] in Hend.
  change (fold_left step segs (mkAcc [] [] 0))
    with (chunk_loop chunk_size chunk_overlap separator segs) in Hend.
  destruct Hend as (runs & Hchunks & Hruns & [l Hl] & Hcov).
  unfold emit_last.
  destruct (current_chunk (chunk_loop chunk_size chunk_overlap separator segs))
    as [|p cur] eqn:Hcur; cbn [truthy].
  - exists runs. repeat split; [exact Hchunks | exact Hruns |].
    intros seg Hin. destruct (Hcov seg Hin) as [Hr|[]]. exact Hr.
  - exists (runs ++ [p :: cur]). repeat split.
    + now rewrite map_app, Hchunks.
    + apply Forall_app. split; [exact Hruns|].
      constructor; [|constructor]. exists l, []. now rewrite app_nil_r.
    + intros seg Hin. destruct (Hcov seg Hin) as [(r & Hr & Hseg)|Hseg].
      * exists r. split; [apply in_or_app; now left | exact Hseg].
      * exists (p :: cur).
        split; [apply in_or_app; right; now left | exact Hseg].
Qed.
End SeparatorRuns.

(** ** [chunk_text] *)

Lemma chunk_text_empty (chunk_size chunk_overlap : Z) (separator : str) :
  chunk_text [] chunk_size chunk_overlap separator = Ok [].
Proof. reflexivity. Qed.

(** The stride is zero exactly for [chunk_size] 0 or 1 with an overlap that
    is not below it: there the floor [chunk_size // 2] is 0. *)
Lemma stride_of_zero (chunk_size chunk_overlap : Z) :
  stride_of chunk_size chunk_overlap = 0
  <-> chunk_size <= chunk_overlap /\ 0 <= chunk_size <= 1.
Proof.
  unfold stride_of.
  destruct (Z.leb_spec (chunk_size - chunk_overlap) 0).
  - split.
    + intros Hz. split; [lia|].
      pose proof (Z.div_mod chunk_size 2 ltac:(lia)).
      pose proof (Z.mod_pos_bound chunk_size 2 ltac:(lia)). lia.
    + intros [_ Hr]. apply Z.div_small. lia.
  - lia.
Qed.

Lemma chunk_by_chars_raises (text : str) (chunk_size chunk_overlap : Z) :
  (exists e, _chunk_text_by_chars text chunk_size chunk_overlap = Raise e)
  <-> chunk_size < len text /\ stride_of chunk_size chunk_overlap = 0.
Proof.
  unfold _chunk_text_by_chars, range.
  destruct text as [|c text]; cbn [truthy negb].
  - split; [intros [e He]; discriminate|].
    intros [Hn Hz]. apply stride_of_zero in Hz. unfold len in Hn. cbn in Hn. lia.
  - destruct (Z.leb_spec (len (c :: text)) chunk_size).
    + split; [intros [e He]; discriminate | lia].
    + destruct (Z.eqb_spec (stride_of chunk_size chunk_overlap) 0).
      * split; [intros _; lia | intros _; now exists ValueError].
      * split; [intros [e He]; discriminate | lia].
Qed.

Lemma chunk_text_raise_cases (text : str) (chunk_size chunk_overlap : Z)
  (separator : str) :
  (exists e, chunk_text text chunk_size chunk_overlap separator = Raise e)
  <-> text <> []
      /\ (separator = []
          \/ (contains text separator = false
              /\ chunk_size < len text
              /\ stride_of chunk_size chunk_overlap = 0)).
Proof.
  unfold chunk_text.
  destruct text as [|c text]; cbn [truthy negb].
  - split; [intros [e He]; discriminate | intros [Hne _]; congruence].
  - destruct separator as [|s separator]; cbn [split].
    + split; [intros _; split; [discriminate | now left]|].
      intros _. now exists ValueError.
    + pose proof (split_scan_single (s :: separator) ltac:(discriminate)
                    (c :: text)) as Hsingle.
      destruct (Nat.eqb_spec (length (split_scan (s :: separator) 0 (c :: text))) 1)
        as [Hone|Hmany].
      * rewrite chunk_by_chars_raises. apply Hsingle in Hone.
        split.
        -- intros [Hn Hz]. split; [discriminate|]. right. auto.
        -- intros [_ [Hs|(_ & Hn & Hz)]]; [discriminate | auto].
      * split; [intros [e He]; discriminate|].
        intros [_ [Hs|(Hc & _)]]; [discriminate|].
        apply Hsingle in Hc. contradiction.
Qed.

(** [chunk_text] raises exactly on a non-empty text with an empty separator,
    or with a separator that does not occur in a text longer than
    [chunk_size] when the stride comes out as zero.  On every other input it
    returns a list. *)
Theorem chunk_text_raises_iff (text : str) (chunk_size chunk_overlap : Z)
  (separator : str) :
  (exists e, chunk_text text chunk_size chunk_overlap separator = Raise e)
  <-> text <> []
      /\ (separator = []
          \/ (contains text separator = false
              /\ chunk_size < len text
              /\ stride_of chunk_size chunk_overlap = 0)).
Proof. apply chunk_text_raise_cases. Qed.

(** C1. [chunk_text] does raise for [chunk_size = 0]: on a text without
    the separator the stride is [0 // 2 = 0] and [range(0, 2, 0)] raises
    [ValueError]. *)
Theorem chunk_text_zero_size_raises :
  chunk_text (s2l "ab") 0 0 newline = Raise ValueError.
Proof. reflexivity. Qed.

(** The same [ValueError] for [chunk_size = 1] with [chunk_overlap = 1], and
    for an empty separator. *)
Example chunk_text_stride_floor_raises :
  chunk_text (s2l "ab") 1 1 newline = Raise ValueError.
Proof. reflexivity. Qed.

Example chunk_text_empty_separator_raises :
  chunk_text (s2l "ab") 1000 200 [] = Raise ValueError.
Proof. reflexivity. Qed.

(** From [chunk_size = 2] on, and with a separator that is not empty,
    [chunk_text] returns a list whatever the overlap. *)
Corollary chunk_text_returns (text : str) (chunk_size chunk_overlap : Z)
  (separator : str) :
  separator <> [] -> 2 <= chunk_size ->
  exists cs, chunk_text text chunk_size chunk_overlap separator = Ok cs.
Proof.
  intros Hsep Hsize.
  destruct (chunk_text text chunk_size chunk_overlap separator) as [cs|e] eqn:E;
    [now exists cs|].
  assert (Hr : exists e, chunk_text text chunk_size chunk_overlap separator = Raise e)
    by now exists e.
  apply chunk_text_raise_cases in Hr as [_ [Hs|(_ & _ & Hz)]]; [contradiction|].
  apply stride_of_zero in Hz. lia.
Qed.

(** C3, as the code has it.  For a non-empty text and a non-empty
    separator, [chunk_text] hands the text to the character algorithm
    exactly when the separator does not occur in it, that is when the split
    has one piece before any empty piece is discarded.  When the separator
    occurs, the separator loop runs, and it sees only the non-empty pieces; a
    text whose split is one non-empty segment followed by empty ones comes
    back as that segment whole, whatever [chunk_size]. *)
Theorem chunk_text_fallback_when_separator_absent
  (text : str) (chunk_size chunk_overlap : Z) (separator : str) :
  text <> [] -> separator <> [] ->
  (contains text separator = false ->
   chunk_text text chunk_size chunk_overlap separator
   = _chunk_text_by_chars text chunk_size chunk_overlap)
  /\ (contains text separator = true ->
      exists splits,
        split text separator = Ok splits
        /\ chunk_text text chunk_size chunk_overlap separator
           = Ok (emit_last separator
                   (chunk_loop chunk_size chunk_overlap separator
                      (List.filter truthy splits)))
        /\ forall seg empties,
             splits = seg :: empties -> seg <> [] ->
             Forall (fun s => s = []) empties ->
             chunk_text text chunk_size chunk_overlap separator = Ok [seg]).
Proof.
  intros Htext Hsep. unfold chunk_text.
  apply truthy_true in Htext. rewrite Htext. cbn [negb].
  destruct separator as [|s separator]; [congruence|]. cbn [split].
  pose proof (split_scan_single (s :: separator) Hsep text) as Hsingle.
  destruct (Nat.eqb_spec (length (split_scan (s :: separator) 0 text)) 1)
    as [Hone|Hmany].
  - apply Hsingle in Hone. split; [reflexivity | congruence].
  - split.
    + intros Hc. apply Hsingle in Hc. contradiction.
    + intros _. exists (split_scan (s :: separator) 0 text).
      split; [reflexivity|].
      assert (Hloop : chunk_loop chunk_size chunk_overlap (s :: separator)
                        (split_scan (s :: separator) 0 text)
                      = chunk_loop chunk_size chunk_overlap (s :: separator)
                          (List.filter truthy
                             (split_scan (s :: separator) 0 text)))
        by apply chunk_loop_skips_empty.
      split; [now rewrite Hloop|].
      intros seg empties Hsplits Hseg Hempty. rewrite Hloop, Hsplits.
      cbn [List.filter]. apply truthy_true in Hseg. rewrite Hseg.
      assert (Hnone : List.filter truthy empties = []).
      { clear -Hempty. induction Hempty as [|x l Hx _ IH]; [reflexivity|].
        subst x. exact IH. }
      rewrite Hnone. unfold chunk_loop. cbn [fold_left].
      unfold chunk_step. rewrite Hseg.
      cbn [negb current_chunk truthy andb chunks current_size app].
      unfold emit_last. cbn [current_chunk chunks truthy app join].
      reflexivity.
Qed.

Lemma chunk_text_fallback_when_separator_absent_witness :
  s2l "abc," <> [] /\ s2l "," <> []
  /\ (contains (s2l "abc,") (s2l ",") = false ->
      chunk_text (s2l "abc,") 2 0 (s2l ",")
      = _chunk_text_by_chars (s2l "abc,") 2 0).
Proof.
  split; [discriminate|]. split; [discriminate|].
  exact (proj1 (chunk_text_fallback_when_separator_absent
                  (s2l "abc,") 2 0 (s2l ",")
                  ltac:(discriminate) ltac:(discriminate))).
Defined.

(** C3 as the claim words it fails on ["abc,"]: after the empty piece is
    discarded one segment is left, yet the character algorithm is not used,
    and the chunk returned is longer than [chunk_size = 2]. *)
Lemma chunk_text_trailing_separator_keeps_segment :
  split (s2l "abc,") (s2l ",") = Ok [s2l "abc"; []]
  /\ List.filter truthy [s2l "abc"; []] = [s2l "abc"]
  /\ chunk_text (s2l "abc,") 2 0 (s2l ",") = Ok [s2l "abc"]
  /\ _chunk_text_by_chars (s2l "abc,") 2 0 = Ok [s2l "ab"; s2l "c,"]
  /\ chunk_text (s2l "abc,") 2 0 (s2l ",")
     <> _chunk_text_by_chars (s2l "abc,") 2 0
  /\ ~ len (s2l "abc") <= 2.
Proof.
  repeat split; try reflexivity; [discriminate | unfold len; cbn; lia].
Qed.

(** C2, as the code has it.  With a non-empty separator, a text that is
    empty, or that has no empty segment and as a whole is no longer than
    [chunk_size], is given back by [chunk_text(text, chunk_size, 0,
    separator)] as chunks whose join on the separator is the text. *)
Theorem chunk_text_rejoin_when_fits (text : str) (chunk_size : Z)
  (separator : str) (splits : list str) :
  split text separator = Ok splits ->
  text = [] \/ Forall (fun s => s <> []) splits ->
  len text <= chunk_size ->
  exists cs,
    chunk_text text chunk_size 0 separator = Ok cs
    /\ join separator cs = text.
Proof.
  intros Hsplit Hsegs Hfit.
  destruct (truthy text) eqn:Htext.
  2: { apply truthy_false in Htext. subst text. now exists []. }
  destruct Hsegs as [Hnil|Hsegs]; [subst text; discriminate|].
  exists [text]. split; [|reflexivity].
  unfold chunk_text. rewrite Htext, Hsplit. cbn [negb].
  destruct separator as [|s separator]; [discriminate|].
  unfold split in Hsplit. injection Hsplit as Hsplits.
  destruct (Nat.eqb_spec (length splits) 1) as [Hone|Hmany].
  - apply chunk_by_chars_short; [now apply truthy_true | assumption].
  - pose proof (join_split_scan (s :: separator) ltac:(discriminate) text)
      as Hjoin.
    rewrite Hsplits in Hjoin.
    unfold chunk_loop.
    change (mkAcc [] [] 0) with (mkAcc [] [] (len (join (s :: separator) []))).
    rewrite chunk_loop_fits; [| assumption | cbn [app]; now rewrite Hjoin].
    unfold emit_last. cbn [current_chunk chunks app].
    assert (Hne : truthy splits = true).
    { apply truthy_true. rewrite <- Hsplits. apply split_scan_not_nil. }
    rewrite Hne. now rewrite Hjoin.
Qed.

Lemma chunk_text_rejoin_when_fits_witness :
  split (s2l "a,b") (s2l ",") = Ok [s2l "a"; s2l "b"]
  /\ Forall (fun s : str => s <> []) [s2l "a"; s2l "b"]
  /\ len (s2l "a,b") <= 10
  /\ exists cs,
       chunk_text (s2l "a,b") 10 0 (s2l ",") = Ok cs
       /\ join (s2l ",") cs = s2l "a,b".
Proof.
  assert (Hsegs : Forall (fun s : str => s <> []) [s2l "a"; s2l "b"])
    by (repeat constructor; discriminate).
  assert (Hfit : len (s2l "a,b") <= 10) by (unfold len; cbn; lia).
  split; [reflexivity|]. split; [exact Hsegs|]. split; [exact Hfit|].
  exact (chunk_text_rejoin_when_fits (s2l "a,b") 10 (s2l ",")
           [s2l "a"; s2l "b"] eq_refl (or_intror Hsegs) Hfit).
Defined.

(** C2 as the claim words it fails on ["a,,b"]: no segment is longer than
    [chunk_size = 10], and the empty segment between the two separators is
    not in the chunks, so their join is ["a,b"]. *)
Lemma chunk_text_rejoin_drops_empty_segment :
  split (s2l "a,,b") (s2l ",") = Ok [s2l "a"; []; s2l "b"]
  /\ Forall (fun s : str => len s <= 10) [s2l "a"; []; s2l "b"]
  /\ chunk_text (s2l "a,,b") 10 0 (s2l ",") = Ok [s2l "a,b"]
  /\ join (s2l ",") [s2l "a,b"] <> s2l "a,,b".
Proof.
  split; [reflexivity|]. split.
  - repeat constructor; unfold len; cbn; lia.
  - split; [reflexivity | discriminate].
Qed.

(** With [chunk_overlap = 0] a chunk closed by the separator loop still
    hands its last segment to the next chunk. *)
Example chunk_text_zero_overlap_repeats_segment :
  chunk_text (s2l "a,b,c,d") 3 0 (s2l ",")
  = Ok [s2l "a,b"; s2l "b,c"; s2l "c,d"].
Proof. reflexivity. Qed.

Lemma chunk_text_by_chars_windows_witness :
  s2l "abcdefg" <> [] /\ 0 < 3 /\ 0 <= 1 < 3
  /\ stride_of 3 1 = 3 - 1
  /\ (len (s2l "abcdefg") <= 3 ->
      _chunk_text_by_chars (s2l "abcdefg") 3 1 = Ok [s2l "abcdefg"]).
Proof.
  assert (H1 : s2l "abcdefg" <> []) by discriminate.
  assert (H2 : 0 < 3) by lia.
  assert (H3 : 0 <= 1 < 3) by lia.
  pose proof (chunk_text_by_chars_windows (s2l "abcdefg") 3 1 H1 H2 H3) as H.
  split; [exact H1|]. split; [exact H2|]. split; [exact H3|].
  split; [exact (proj1 H) | exact (proj1 (proj2 H))].
Defined.

Example chunk_text_by_chars_run :
  _chunk_text_by_chars (s2l "abcdefg") 3 1
  = Ok [s2l "abc"; s2l "cde"; s2l "efg"].
Proof. reflexivity. Qed.

(** ** Similarity utilities *)

(** *** Subtraction and squaring in IEEE 754 arithmetic

    [x - y] and [y - x] differ in sign only (or are both [+0], or both
    NaN), and a product of a number with itself does not see its sign.  The
    facts are proved on the specification of the primitive operations. *)

Section SpecFloat.
Variables prec emax : Z.

Lemma binary_round_aux_negb (sx : bool) (mx ex : Z) (lx : location) :
  binary_round_aux prec emax (negb sx) mx ex lx
  = SFopp (binary_round_aux prec emax sx mx ex lx).
Proof.
  unfold binary_round_aux.
  destruct (shr_fexp prec emax mx ex lx) as [mrs' e'].
  destruct (shr_fexp prec emax _ e' loc_Exact) as [mrs'' e''].
  destruct (shr_m mrs''); [reflexivity | | reflexivity].
  now destruct (Z.leb e'' (Z.sub emax prec)).
Qed.

Lemma binary_round_negb (sx : bool) (mx : positive) (ex : Z) :
  binary_round prec emax (negb sx) mx ex
  = SFopp (binary_round prec emax sx mx ex).
Proof.
  unfold binary_round. destruct (shl_align mx ex _) as [mz ez].
  apply binary_round_aux_negb.
Qed.

Lemma binary_normalize_opp (m e : Z) :
  binary_normalize prec emax (- m) e false
  = SFopp (binary_normalize prec emax m e false)
  \/ (binary_normalize prec emax (- m) e false = S754_zero false
      /\ binary_normalize prec emax m e false = S754_zero false).
Proof.
  destruct m as [|p|p]; cbn [Z.opp binary_normalize].
  - right. split; reflexivity.
  - left. apply (binary_round_negb false).
  - left. change (- Z.neg p)%Z with (Z.pos p). cbn [binary_normalize].
    change true with (negb false). rewrite binary_round_negb.
    now destruct (binary_round _ _ _ _ _) as [[]|[]| |[] ? ?].
Qed.

Lemma SFmul_opp_opp (z : spec_float) :
  SFmul prec emax (SFopp z) (SFopp z) = SFmul prec emax z z.
Proof. destruct z as [s|s| |s m e]; try reflexivity; now destruct s. Qed.

Lemma SFsub_swap (x y : spec_float) :
  SFsub prec emax y x = SFopp (SFsub prec emax x y)
  \/ (SFsub prec emax y x = S754_zero false
      /\ SFsub prec emax x y = S754_zero false).
Proof.
  destruct x as [sx|sx| |sx mx ex], y as [sy|sy| |sy my ey];
    try (left; reflexivity);
    try (destruct sx, sy; cbn; auto; fail);
    try (destruct sx; cbn; auto; fail);
    try (destruct sy; cbn; auto; fail).
  cbn [SFsub]. rewrite (Z.min_comm ey ex).
  set (a := cond_Zopp sx (Zpos (fst (shl_align mx ex (Z.min ex ey))))).
  set (b := cond_Zopp sy (Zpos (fst (shl_align my ey (Z.min ex ey))))).
  replace (Z.sub b a) with (- (Z.sub a b)) by lia.
  apply binary_normalize_opp.
Qed.

Lemma SFsub_square_swap (x y : spec_float) :
  SFmul prec emax (SFsub prec emax x y) (SFsub prec emax x y)
  = SFmul prec emax (SFsub prec emax y x) (SFsub prec emax y x).
Proof.
  destruct (SFsub_swap x y) as [H|[H1 H2]].
  - now rewrite H, SFmul_opp_opp.
  - now rewrite H1, H2.
Qed.
End SpecFloat.

Local Open Scope float_scope.

Lemma sub_square_swap (x y : float) : (x - y) * (x - y) = (y - x) * (y - x).
Proof.
  apply Prim2SF_inj. rewrite !mul_spec, !sub_spec.
  apply SFsub_square_swap.
Qed.

Lemma np_dot_sub_swap (vec1 : list float) :
  forall (vec2 : list float) (s : float),
    fold_left (fun s p => s + fst p * snd p)
              (combine (np_sub vec1 vec2) (np_sub vec1 vec2)) s
    = fold_left (fun s p => s + fst p * snd p)
                (combine (np_sub vec2 vec1) (np_sub vec2 vec1)) s.
Proof.
  induction vec1 as [|x vec1 IH]; intros [|y vec2] s; try reflexivity.
  unfold np_sub. cbn [combine map fold_left fst snd].
  rewrite (sub_square_swap x y). apply IH.
Qed.

Lemma np_norm_sub_swap (vec1 vec2 : list float) :
  np_norm (np_sub vec1 vec2) = np_norm (np_sub vec2 vec1).
Proof. unfold np_norm, np_dot. f_equal. apply np_dot_sub_swap. Qed.

Lemma guard_degenerate (vec1 vec2 : list float) :
  negb (truthy vec1) || negb (truthy vec2)
  || negb (length vec1 =? length vec2)%nat = true
  <-> degenerate vec1 vec2.
Proof.
  unfold degenerate. rewrite !orb_true_iff, !negb_true_iff, !truthy_false.
  rewrite Nat.eqb_neq. tauto.
Qed.

Lemma guard_swap (vec1 vec2 : list float) :
  negb (truthy vec1) || negb (truthy vec2)
  || negb (length vec1 =? length vec2)%nat
  = negb (truthy vec2) || negb (truthy vec1)
    || negb (length vec2 =? length vec1)%nat.
Proof.
  rewrite (Nat.eqb_sym (length vec1)).
  now destruct (truthy vec1), (truthy vec2).
Qed.

(** C8. [cosine_similarity] returns [0.0] when a vector is empty, when the
    lengths differ, and when the norm of either vector compares equal to
    zero; [euclidean_distance] returns [+infinity] when a vector is empty or
    the lengths differ; and [euclidean_distance] gives the same float for
    [(a, b)] and [(b, a)], which [==] also reports unless that float is NaN.
    Both functions are total: no input raises. *)
Theorem similarity_degenerate_and_symmetric (a b : list float) :
  (degenerate a b -> cosine_similarity a b = 0)
  /\ ((np_norm a =? 0) = true \/ (np_norm b =? 0) = true ->
      cosine_similarity a b = 0)
  /\ (degenerate a b -> euclidean_distance a b = infinity)
  /\ euclidean_distance a b = euclidean_distance b a
  /\ (is_nan (euclidean_distance a b) = false ->
      (euclidean_distance a b =? euclidean_distance b a) = true).
Proof.
  assert (Hsym : euclidean_distance a b = euclidean_distance b a).
  { unfold euclidean_distance. rewrite (guard_swap a b).
    destruct (_ || _ || negb _); [reflexivity|]. apply np_norm_sub_swap. }
  unfold cosine_similarity.
  split; [|split; [|split; [|split]]].
  - intros Hd. apply guard_degenerate in Hd. now rewrite Hd.
  - intros Hz. destruct (_ || _ || negb _); [reflexivity|].
    assert (Hor : (np_norm a =? 0) || (np_norm b =? 0) = true)
      by (apply orb_true_iff; exact Hz).
    now rewrite Hor.
  - intros Hd. unfold euclidean_distance.
    apply guard_degenerate in Hd. now rewrite Hd.
  - exact Hsym.
  - rewrite <- Hsym. unfold is_nan. now intros ->%negb_false_iff.
Qed.

Lemma similarity_degenerate_and_symmetric_witness :
  degenerate [] [1; 2]
  /\ cosine_similarity [] [1; 2] = 0
  /\ ((np_norm [0; 0] =? 0) = true -> cosine_similarity [0; 0] [1; 2] = 0)
  /\ euclidean_distance [] [1; 2] = infinity.
Proof.
  assert (Hd : degenerate [] [1; 2]) by (left; reflexivity).
  pose proof (similarity_degenerate_and_symmetric [] [1; 2]) as H.
  pose proof (similarity_degenerate_and_symmetric [0; 0] [1; 2]) as H0.
  split; [exact Hd|]. split; [exact (proj1 H Hd)|].
  split; [|exact (proj1 (proj2 (proj2 H)) Hd)].
  intros Hz. exact (proj1 (proj2 H0) (or_introl Hz)).
Defined.

Example cosine_similarity_zero_vector :
  (np_norm [0; 0] =? 0) = true /\ cosine_similarity [0; 0] [1; 2] = 0.
Proof. split; vm_compute; reflexivity. Qed.

Example euclidean_distance_run : euclidean_distance [0; 3] [4; 0] = 5.
Proof. vm_compute. reflexivity. Qed.

Local Close Scope float_scope.

(** ** The OpenAI provider *)

Section Provider.
Import OpenAIProvider.
Variable c : client.

Lemma attempts_of_init : attempts_of (init c) = [0; 1; 2].
Proof. reflexivity. Qed.

(** [generate] always returns a string, after at most three requests, and
    sleeps 1 then 2 seconds between them. *)
Lemma generate_bounded (prompt : str) (w : world) :
  exists (r : str) (w' : world),
    generate (init c) prompt w = (Some r, w')
    /\ (requests w < requests w' <= requests w + 3)%nat
    /\ (exists naps, slept w' = slept w ++ naps
                     /\ (naps = [] \/ naps = [1] \/ naps = [1; 2])).
Proof.
  unfold generate. rewrite attempts_of_init. cbn [attempt_loop].
  cbn [init api max_retries retry_delay sent sleep requests slept].
  destruct (chat c (requests w)) as [r0|e0].
  { eexists _, _. split; [reflexivity|]. cbn. split; [lia|].
    exists []. rewrite app_nil_r. auto. }
  rewrite (eq_refl : (0 <? 3 - 1) = true). cbn [requests slept].
  destruct (chat c (S (requests w))) as [r1|e1].
  { eexists _, _. split; [reflexivity|]. cbn. split; [lia|].
    exists [1]. auto. }
  rewrite (eq_refl : (1 <? 3 - 1) = true). cbn [requests slept].
  destruct (chat c (S (S (requests w)))) as [r2|e2].
  { eexists _, _. split; [reflexivity|]. cbn. split; [lia|].
    exists [1; 2]. rewrite <- app_assoc. auto. }
  eexists _, _. split; [reflexivity|]. cbn. split; [lia|].
  exists [1; 2]. rewrite <- app_assoc. auto.
Qed.

(** When the three requests fail, [generate] gives the empty string. *)
Lemma generate_exhausted (prompt : str) (w : world) :
  (forall n, (n < 3)%nat -> exists e, chat c (requests w + n) = Raise e) ->
  generate (init c) prompt w
  = (Some [], mkWorld (requests w + 3) (slept w ++ [1; 2])).
Proof.
  intros Hfail.
  destruct (Hfail 0%nat ltac:(lia)) as [e0 H0].
  destruct (Hfail 1%nat ltac:(lia)) as [e1 H1].
  destruct (Hfail 2%nat ltac:(lia)) as [e2 H2].
  rewrite Nat.add_0_r in H0.
  replace (requests w + 1)%nat with (S (requests w)) in H1 by lia.
  replace (requests w + 2)%nat with (S (S (requests w))) in H2 by lia.
  unfold generate. rewrite attempts_of_init. cbn [attempt_loop].
  cbn [init api max_retries retry_delay sent sleep requests slept].
  rewrite H0, (eq_refl : (0 <? 3 - 1) = true).
  cbn [requests slept]. rewrite H1, (eq_refl : (1 <? 3 - 1) = true).
  cbn [requests slept]. rewrite H2, (eq_refl : (2 <? 3 - 1) = false).
  unfold sent, sleep. cbn [requests slept].
  rewrite <- app_assoc. do 2 f_equal. lia.
Qed.

(** [get_embedding] sends one request and never sleeps; a failed request
    gives the empty vector at once. *)
Lemma get_embedding_single_request (text : str) (w : world) :
  snd (get_embedding (init c) text w) = mkWorld (S (requests w)) (slept w)
  /\ (forall e, embed c (requests w) = Raise e ->
      fst (get_embedding (init c) text w) = []).
Proof.
  unfold get_embedding. cbn [init api].
  destruct (embed c (requests w)) as [r|e].
  - destruct (data r); split; try reflexivity; discriminate.
  - split; reflexivity.
Qed.
End Provider.

(** C5. [get_embedding] does not retry.  Against a client whose first
    request fails and whose second would succeed, [generate] and
    [generate_with_history] sleep one second, send the second request and
    return its text, while [get_embedding] returns the empty vector after
    the one failed request. *)
Theorem get_embedding_gives_up_after_one_failure :
  OpenAIProvider.generate (OpenAIProvider.init OpenAIProvider.flaky)
    (s2l "hi") OpenAIProvider.start
  = (Some (s2l "ok"), OpenAIProvider.mkWorld 2 [1])
  /\ OpenAIProvider.generate_with_history
       (OpenAIProvider.init OpenAIProvider.flaky)
       [(s2l "user", s2l "hi")] OpenAIProvider.start
     = (Some (s2l "ok"), OpenAIProvider.mkWorld 2 [1])
  /\ OpenAIProvider.get_embedding (OpenAIProvider.init OpenAIProvider.flaky)
       (s2l "hi") OpenAIProvider.start
     = ([], OpenAIProvider.mkWorld 1 []).
Proof. repeat split. Qed.

(** ** The Chroma store *)

Section Chroma.
Import ChromaVectorStore.
Context {C : Type} `{Collection C}.

(** The formatting loop keeps the documents, in their order. *)
Lemma format_loop_texts (results : query_result) (docs : list str) :
  forall (i : nat) (hs : list hit),
    format_loop results i docs = Ok hs -> map hit_text hs = docs.
Proof.
  induction docs as [|doc docs IH]; intros i hs Hf; cbn [format_loop] in Hf.
  - injection Hf as <-. reflexivity.
  - unfold format_hit in Hf.
    destruct (column (metadatas results) i); [|discriminate].
    destruct (column (ids results) i); [|discriminate].
    destruct (column (distances results) i); [|discriminate].
    destruct (format_loop results (S i) docs) as [hs'|] eqn:Hrest;
      [|discriminate].
    injection Hf as <-. cbn [map hit_text]. f_equal.
    now apply (IH (S i)).
Qed.

(** What [similarity_search] returns is empty, or is the first row of
    [documents] of the query's answer, formatted in place. *)
Lemma similarity_search_keeps_order (query : str) (k : Z)
  (filter : option meta) (self : t C) :
  fst (similarity_search query k filter self) = []
  \/ exists results docs rest,
       fst (coll_query query k filter (collection self)) = Ok results
       /\ documents results = Some (docs :: rest)
       /\ map hit_text (fst (similarity_search query k filter self)) = docs.
Proof.
  unfold similarity_search.
  destruct (coll_query query k filter (collection self)) as [[results|e] c];
    [|now left].
  destruct (documents results) as [[|docs rest]|] eqn:Hdocs; try now left.
  destruct (truthy docs); [|now left].
  destruct (format_loop results 0 docs) as [hs|e] eqn:Hf; [|now left].
  right. exists results, docs, rest. cbn [fst].
  repeat split; [assumption|]. eapply format_loop_texts; eassumption.
Qed.

Lemma similarity_search_bounded :
  honours_n_results ->
  forall query k filter (self : t C),
    len (fst (similarity_search query k filter self)) <= Z.max 0 k.
Proof.
  intros Hbound query k filter self.
  destruct (similarity_search_keeps_order query k filter self)
    as [->|(results & docs & rest & Hq & Hd & Hm)].
  - unfold len. cbn [length]. lia.
  - specialize (Hbound _ _ _ _ _ _ _ Hq Hd).
    unfold len in *. rewrite <- Hm, length_map in Hbound. exact Hbound.
Qed.

(** C10, as the code has it.  With neither [ids] nor [filter], [delete]
    touches nothing and returns [True].  With an [ids] list that is not
    empty, [delete] calls the collection's [delete] on those ids and nothing
    else, whatever [filter] is.  An empty [ids] list counts as no [ids]: the
    filter, if any, is then used. *)
Theorem delete_by_ids_or_vacuous (self : t C) :
  delete None None self = (true, self)
  /\ (forall ids filter,
         ids <> [] ->
         delete (Some ids) filter self
         = match coll_delete ids (collection self) with
           | (Ok _, c) => (true, with_collection self c)
           | (Raise _, c) => (false, with_collection self c)
           end)
  /\ (forall filter, delete (Some []) filter self = delete None filter self).
Proof.
  split; [reflexivity|]. split; [|reflexivity].
  intros ids filter Hids. unfold delete. cbn [truthy_opt default].
  apply truthy_true in Hids. now rewrite Hids.
Qed.
End Chroma.

(** ** The retriever *)

Section Retriever.
Import DocumentRetriever.
Context {S : Type} `{VectorStore S}.

(** C6, as the code has it.  [retrieve] searches with [k = top_k] when a
    [top_k] other than 0 is passed, and with the configured [self.top_k]
    when [top_k] is [None] or 0.  It returns what the store's search returns,
    as it is, and the empty list when there is no store or the search
    raises; so over a store that honours [k] it returns at most [k]
    results. *)
Theorem retrieve_returns_search_results (self : t S) (query : str)
  (top_k' : option Z) (filter : option meta) :
  let k := effective_top_k self top_k' in
  let out := fst (retrieve query top_k' filter self) in
  (top_k' = None \/ top_k' = Some 0 -> k = top_k self)
  /\ (forall n, top_k' = Some n -> n <> 0 -> k = n)
  /\ (vector_store self = None -> out = [])
  /\ (forall s, vector_store self = Some s ->
        out = match fst (vs_similarity_search query k filter s) with
              | Ok results => results
              | Raise _ => []
              end)
  /\ (honours_k -> len out <= Z.max 0 k).
Proof.
  intros k out. subst k out. unfold retrieve, effective_top_k.
  split; [|split; [|split; [|split]]].
  - intros [->| ->]; reflexivity.
  - intros n -> Hn. now destruct (Z.eqb_spec n 0).
  - intros ->. reflexivity.
  - intros s ->.
    now destruct (vs_similarity_search _ _ _ s) as [[results|e] s'].
  - intros Hk. destruct (vector_store self) as [s|];
      [|unfold len; cbn [fst length]; lia].
    destruct (vs_similarity_search _ _ _ s) as [[results|e] s'] eqn:Hs;
      [|unfold len; cbn [fst length]; lia].
    cbn [fst]. eapply Hk. exact Hs.
Qed.

(** C7. With a store configured.  Whenever [add_texts] returns,
    [add_documents] calls [persist] on the store [add_texts] left: the
    retriever's store afterwards is the one [persist] left, and the ids
    of [add_texts] are returned unless [persist] raises.  When [add_texts]
    raises, [persist] is not called.  [delete_documents] calls [persist] on
    the store [delete] left exactly when [delete] returned [True]; in every
    other case the store is as [delete] left it and [False] is returned.
    The calls made on the store are, in order, the mutation and then
    [persist], and nothing else. *)
Theorem persist_follows_mutation (self : t S) (s : S) :
  vector_store self = Some s ->
  (forall texts metadatas ids doc_ids s1,
      vs_add_texts texts metadatas ids s = (Ok doc_ids, s1) ->
      let out := add_documents texts metadatas ids self in
      vector_store (snd out) = Some (snd (vs_persist s1))
      /\ fst out = match fst (vs_persist s1) with
                   | Ok _ => doc_ids
                   | Raise _ => []
                   end
      /\ calls (snd out) = calls self ++ [CallAddTexts; CallPersist])
  /\ (forall texts metadatas ids e s1,
         vs_add_texts texts metadatas ids s = (Raise e, s1) ->
         let out := add_documents texts metadatas ids self in
         vector_store (snd out) = Some s1
         /\ fst out = []
         /\ calls (snd out) = calls self ++ [CallAddTexts])
  /\ (forall ids filter r s1,
         vs_delete ids filter s = (r, s1) ->
         let out := delete_documents ids filter self in
         vector_store (snd out)
         = Some match r with
                | Ok true => snd (vs_persist s1)
                | _ => s1
                end
         /\ fst out = match r with
                      | Ok true =>
                          match fst (vs_persist s1) with
                          | Ok _ => true
                          | Raise _ => false
                          end
                      | _ => false
                      end
         /\ calls (snd out)
            = calls self
              ++ CallDelete :: match r with
                               | Ok true => [CallPersist]
                               | _ => []
                               end).
Proof.
  intros Hs. split; [|split].
  - intros texts metadatas ids doc_ids s1 Hadd out. subst out.
    unfold add_documents. rewrite Hs, Hadd.
    destruct (vs_persist s1) as [[b|e] s2];
      cbn [fst snd called calls vector_store];
      now rewrite <- app_assoc.
  - intros texts metadatas ids e s1 Hadd out. subst out.
    unfold add_documents. rewrite Hs, Hadd. now cbn.
  - intros ids filter r s1 Hdel out. subst out.
    unfold delete_documents. rewrite Hs, Hdel.
    destruct r as [[|]|e]; [|now cbn|now cbn].
    destruct (vs_persist s1) as [[b|e] s2];
      cbn [fst snd called calls vector_store];
      now rewrite <- app_assoc.
Qed.
End Retriever.

(** ** Runs on the in-memory collection *)

Lemma memory_honours_n_results :
  @honours_n_results (list MemoryCollection.entry) _.
Proof.
  intros query k filter c results docs rest Hq Hd.
  cbn [coll_query MemoryCollection.collection fst] in Hq.
  unfold MemoryCollection.query in Hq.
  destruct (Z.leb_spec k 0); [discriminate|].
  injection Hq as <-. cbn [documents] in Hd. injection Hd as <- <-.
  unfold len. rewrite length_map, length_firstn. lia.
Qed.

Lemma chroma_honours_k {C : Type} `{Collection C} :
  @honours_n_results C _ -> @honours_k (ChromaVectorStore.t C) _.
Proof.
  intros Hn query k filter s results s' Hs.
  cbn [vs_similarity_search ChromaVectorStore.vector_store] in Hs.
  pose proof (similarity_search_bounded Hn query k filter s) as Hb.
  destruct (ChromaVectorStore.similarity_search query k filter s) as [r s0].
  injection Hs as <- <-. exact Hb.
Qed.

Lemma retrieve_returns_search_results_witness :
  DocumentRetriever.effective_top_k Fixture.retriever (Some 1) = 1
  /\ len (fst (DocumentRetriever.retrieve (s2l "alpha") (Some 1) None
                 Fixture.retriever)) <= Z.max 0 1.
Proof.
  pose proof (retrieve_returns_search_results Fixture.retriever (s2l "alpha")
                (Some 1) None) as H.
  cbv zeta in H. destruct H as (_ & Hk & _ & _ & Hlen).
  split.
  - exact (Hk 1 eq_refl ltac:(discriminate)).
  - rewrite (Hk 1 eq_refl ltac:(discriminate)) in Hlen.
    exact (Hlen (chroma_honours_k memory_honours_n_results)).
Defined.

(** C6 as the claim words it fails for [top_k = 0]: the retriever searches
    with its configured [top_k = 4] and returns both documents. *)
Lemma retrieve_top_k_zero_uses_default :
  map hit_text (fst (DocumentRetriever.retrieve (s2l "alpha") (Some 0) None
                       Fixture.retriever))
  = [s2l "alpha"; s2l "beta"]
  /\ DocumentRetriever.calls
       (snd (DocumentRetriever.retrieve (s2l "alpha") (Some 0) None
               Fixture.retriever))
     = [DocumentRetriever.CallSearch 4]
  /\ ~ len (fst (DocumentRetriever.retrieve (s2l "alpha") (Some 0) None
                   Fixture.retriever)) <= 0.
Proof.
  split; [reflexivity|]. split; [reflexivity|].
  assert (E : len (fst (DocumentRetriever.retrieve (s2l "alpha") (Some 0) None
                          Fixture.retriever)) = 2) by reflexivity.
  rewrite E. lia.
Qed.

Lemma persist_follows_mutation_witness :
  (let out := DocumentRetriever.add_documents [s2l "hello world"] None
                (Some ["b"%string]) BufferedStore.retriever in
   DocumentRetriever.vector_store (snd out)
   = Some (BufferedStore.mkBuffered ["a"; "b"]%string ["a"; "b"]%string)
   /\ fst out = ["b"%string]
   /\ DocumentRetriever.calls (snd out)
      = [DocumentRetriever.CallAddTexts; DocumentRetriever.CallPersist])
  /\ (let out := DocumentRetriever.delete_documents (Some ["a"%string]) None
                   BufferedStore.retriever in
      DocumentRetriever.vector_store (snd out)
      = Some (BufferedStore.mkBuffered [] [])
      /\ fst out = true
      /\ DocumentRetriever.calls (snd out)
         = [DocumentRetriever.CallDelete; DocumentRetriever.CallPersist])
  /\ (let out := DocumentRetriever.delete_documents (Some ["z"%string]) None
                   BufferedStore.retriever in
      DocumentRetriever.vector_store (snd out)
      = Some (BufferedStore.mkBuffered [] ["a"%string])
      /\ fst out = false
      /\ DocumentRetriever.calls (snd out) = [DocumentRetriever.CallDelete])
  /\ DocumentRetriever.calls
       (snd (DocumentRetriever.add_documents [s2l "hello world"] None None
               Fixture.retriever))
     = [DocumentRetriever.CallAddTexts; DocumentRetriever.CallPersist].
Proof.
  pose proof (persist_follows_mutation BufferedStore.retriever
                (BufferedStore.mkBuffered [] ["a"%string]) eq_refl)
    as (Hadd & _ & Hdel).
  pose proof (persist_follows_mutation Fixture.retriever Fixture.store eq_refl)
    as (Hadd' & _ & _).
  split; [|split; [|split]].
  - exact (Hadd [s2l "hello world"] None (Some ["b"%string]) _ _ eq_refl).
  - exact (Hdel (Some ["a"%string]) None _ _ eq_refl).
  - exact (Hdel (Some ["z"%string]) None _ _ eq_refl).
  - exact (proj2 (proj2 (Hadd' [s2l "hello world"] None None _ _ eq_refl))).
Defined.

Lemma delete_by_ids_or_vacuous_witness :
  ["a"%string] <> []
  /\ ChromaVectorStore.delete (Some ["a"%string])
       (Some {[ "source"%string := VStr "y.txt" ]}) Fixture.store
     = ChromaVectorStore.delete (Some ["a"%string]) None Fixture.store.
Proof.
  assert (Hne : ["a"%string] <> []) by discriminate.
  destruct (delete_by_ids_or_vacuous Fixture.store) as (_ & Hids & _).
  split; [exact Hne|].
  rewrite (Hids ["a"%string] (Some {[ "source"%string := VStr "y.txt" ]}) Hne).
  rewrite (Hids ["a"%string] None Hne). reflexivity.
Defined.

(** C10 as the claim words it fails when the [ids] passed is the empty
    list: the filter is then not ignored, and the entry it matches is
    deleted. *)
Lemma delete_empty_ids_uses_filter :
  map MemoryCollection.entry_id
    (ChromaVectorStore.collection
       (snd (ChromaVectorStore.delete (Some [])
               (Some {[ "source"%string := VStr "x.txt" ]}) Fixture.store)))
  = ["b"%string]
  /\ map MemoryCollection.entry_id (ChromaVectorStore.collection Fixture.store)
     = ["a"%string; "b"%string].
Proof. split; vm_compute; reflexivity. Qed.

(** ** The document processor *)

Section Processor.
Import DocumentProcessor.
Variables (self : t) (file_path : path) (metadata' : option meta).

(** C9. For a file that can be read, the records [_process_text_file]
    returns are, in order, the chunks the chunker produced for the content
    of that file: the [i]-th record carries [chunk_index = i] and
    [chunk_count] equal to the number of records, which is the number of
    those chunks, so [0 <= chunk_index < chunk_count]; an empty file gives
    no record. *)
Theorem process_text_file_chunk_records (content : str) :
  read file_path = Ok content ->
  let docs := _process_text_file self file_path metadata' in
  (forall (i : nat) (d : document),
      docs !! i = Some d ->
      metadata d !! "chunk_index"%string = Some (VInt (Z.of_nat i))
      /\ metadata d !! "chunk_count"%string = Some (VInt (len docs))
      /\ 0 <= Z.of_nat i < len docs)
  /\ (forall cs,
         chunk_text content (chunk_size self) (chunk_overlap self) newline
         = Ok cs ->
         map text docs = cs)
  /\ (content = [] -> docs = []).
Proof.
  intros Hread docs. subst docs. unfold _process_text_file. rewrite Hread.
  set (base := if truthy_dict metadata' then _ else _).
  destruct (chunk_text content (chunk_size self) (chunk_overlap self) newline)
    as [cs|e] eqn:Hchunks.
  - split; [|split].
    + intros i d Hd. apply list_lookup_imap_Some in Hd as (chunk & Hc & ->).
      cbn [metadata]. unfold len. rewrite length_imap.
      split; [|split].
      * rewrite lookup_insert_ne by discriminate. apply lookup_insert_eq.
      * apply lookup_insert_eq.
      * apply lookup_lt_Some in Hc. lia.
    + intros cs' [= <-]. clear Hchunks.
      change (map ?f ?l) with (f <$> l). rewrite fmap_imap.
      generalize (len cs). intros n.
      induction cs as [|chunk cs IH]; [reflexivity|].
      rewrite imap_cons. f_equal. apply IH.
    + intros ->. rewrite chunk_text_empty in Hchunks.
      injection Hchunks as <-. reflexivity.
  - split; [|split]; [intros i d Hd; discriminate | discriminate | reflexivity].
Qed.

(** [process_file] returns those records for a supported suffix, and
    nothing for any other. *)
Lemma process_file_cases :
  process_file self file_path metadata'
  = _process_text_file self file_path metadata'
  \/ process_file self file_path metadata' = [].
Proof.
  unfold process_file. destruct (exists_ file_path); cbn [negb]; [|now right].
  destruct (bool_decide _); [now left | now right].
Qed.
End Processor.

Lemma process_text_file_chunk_records_witness :
  DocumentProcessor.read Fixture.notes_txt
  = Ok (s2l "one" ++ newline ++ s2l "two")
  /\ map DocumentProcessor.text
       (DocumentProcessor._process_text_file DocumentProcessor.init
          Fixture.notes_txt None)
     = [s2l "one" ++ newline ++ s2l "two"].
Proof.
  split; [reflexivity|].
  exact (proj1 (proj2 (process_text_file_chunk_records DocumentProcessor.init
                         Fixture.notes_txt None _ eq_refl))
               _ eq_refl).
Defined.

Example process_file_run :
  map (fun d => (DocumentProcessor.text d,
                 DocumentProcessor.metadata d !! "chunk_index"%string,
                 DocumentProcessor.metadata d !! "chunk_count"%string,
                 DocumentProcessor.metadata d !! "file_type"%string))
      (DocumentProcessor.process_file (DocumentProcessor.mkProcessor 3 0)
         Fixture.notes_txt None)
  = [ (s2l "one", Some (VInt 0), Some (VInt 2), Some (VStr ".txt"));
      (s2l "one" ++ newline ++ s2l "two",
       Some (VInt 1), Some (VInt 2), Some (VStr ".txt")) ].
Proof. vm_compute. reflexivity. Qed.

(** * Further properties *)

(** ** [truncate_text] *)

(** For [max_length >= 3] the result never exceeds [max_length]: a text
    that fits is returned as it is, a longer one is cut to its first
    [max_length - 3] characters followed by three dots, [max_length]
    characters in all. *)
Theorem truncate_text_fits (text : str) (max_length : Z) :
  3 <= max_length ->
  len (truncate_text text max_length) <= max_length
  /\ (len text <= max_length -> truncate_text text max_length = text)
  /\ (max_length < len text ->
      truncate_text text max_length
      = firstn (Z.to_nat (max_length - 3)) text ++ s2l "..."
      /\ len (truncate_text text max_length) = max_length).
Proof.
  intros Hm. unfold truncate_text.
  destruct (Z.leb_spec (len text) max_length) as [Hfit|Hlong].
  - repeat split; [assumption | lia | lia].
  - assert (Hcut : slice text 0 (max_length - 3)
                   = firstn (Z.to_nat (max_length - 3)) text).
    { replace (max_length - 3) with (0 + (max_length - 3)) at 1 by lia.
      rewrite slice_window by lia. reflexivity. }
    rewrite Hcut.
    assert (Hlen : len (firstn (Z.to_nat (max_length - 3)) text ++ s2l "...")
                   = max_length).
    { rewrite len_app. unfold len in *. rewrite length_firstn.
      cbn [s2l list_ascii_of_string length]. lia. }
    repeat split; [lia | lia | exact Hlen].
Qed.

Lemma truncate_text_fits_witness :
  3 <= 5
  /\ truncate_text (s2l "abcdefgh") 5 = s2l "ab..."
  /\ len (truncate_text (s2l "abcdefgh") 5) = 5.
Proof.
  assert (H3 : 3 <= 5) by lia.
  assert (Hlong : 5 < len (s2l "abcdefgh")) by (unfold len; cbn; lia).
  destruct (truncate_text_fits (s2l "abcdefgh") 5 H3) as (_ & _ & Hcut).
  destruct (Hcut Hlong) as [Heq Hlen].
  split; [exact H3|]. split; [exact Heq | exact Hlen].
Defined.

(** Below [max_length = 3] the three dots alone do not fit: a text longer
    than [max_length] comes back longer than [max_length]. *)
Theorem truncate_text_overshoots (text : str) (max_length : Z) :
  max_length < 3 -> max_length < len text ->
  max_length < len (truncate_text text max_length).
Proof.
  intros Hm Hlong. unfold truncate_text.
  destruct (Z.leb_spec (len text) max_length); [lia|].
  rewrite len_app. pose proof (len_nonneg (slice text 0 (max_length - 3))).
  unfold len at 2. cbn [s2l list_ascii_of_string length]. lia.
Qed.

Lemma truncate_text_overshoots_witness :
  2 < 3 /\ 2 < len (s2l "abcdefgh")
  /\ 2 < len (truncate_text (s2l "abcdefgh") 2).
Proof.
  assert (H1 : 2 < 3) by lia.
  assert (H2 : 2 < len (s2l "abcdefgh")) by (unfold len; cbn; lia).
  split; [exact H1|]. split; [exact H2|].
  exact (truncate_text_overshoots (s2l "abcdefgh") 2 H1 H2).
Defined.

Example truncate_text_small_run :
  truncate_text (s2l "abcdefgh") 2 = s2l "abcdefg...".
Proof. reflexivity. Qed.

(** ** [chunk_by_tokens] *)

(** With [max_tokens >= 1] the chunk size is at least 4 characters and
    [chunk_by_tokens] returns a list for every text and overlap; with
    [max_tokens = 0] and an overlap that is not negative it raises on every
    non-empty text that has no line feed. *)
Theorem chunk_by_tokens_returns_from_one_token (text : str)
  (max_tokens overlap_tokens : Z) :
  (1 <= max_tokens ->
   exists cs, chunk_by_tokens text max_tokens overlap_tokens = Ok cs)
  /\ (max_tokens = 0 -> 0 <= overlap_tokens -> text <> [] ->
      contains text newline = false ->
      exists e, chunk_by_tokens text max_tokens overlap_tokens = Raise e).
Proof.
  unfold chunk_by_tokens. split.
  - intros Hm. apply chunk_text_returns; [discriminate | lia].
  - intros -> Ho Htext Hnl. apply chunk_text_raise_cases.
    split; [assumption|]. right. split; [assumption|]. split.
    + destruct text; [congruence|]. unfold len. cbn [length]. lia.
    + apply stride_of_zero. lia.
Qed.

Lemma chunk_by_tokens_returns_from_one_token_witness :
  1 <= 1
  /\ (exists cs, chunk_by_tokens (s2l "abcdefgh") 1 0 = Ok cs)
  /\ (exists e, chunk_by_tokens (s2l "ab") 0 0 = Raise e).
Proof.
  assert (H1 : 1 <= 1) by lia.
  split; [exact H1|]. split.
  - exact (proj1 (chunk_by_tokens_returns_from_one_token (s2l "abcdefgh") 1 0)
                 H1).
  - exact (proj2 (chunk_by_tokens_returns_from_one_token (s2l "ab") 0 0)
                 eq_refl ltac:(lia) ltac:(discriminate) eq_refl).
Defined.

(** ** [_estimate_chunks_for_overlap] *)

Section Estimate.
Variables (separator : str) (overlap_size : Z).

Local Abbreviation joined l := (len (join separator l)).

Lemma joined_snoc (pre : list str) (c : str) :
  joined (pre ++ [c])
  = (if (0 <? length pre)%nat then joined pre + len separator else joined pre)
    + len c.
Proof.
  destruct pre as [|p pre].
  - reflexivity.
  - rewrite join_app by discriminate. rewrite !len_app.
    change (join separator [c]) with c. cbn [length Nat.ltb Nat.leb]. lia.
Qed.

Lemma joined_rev (l : list str) : joined (rev l) = joined l.
Proof.
  induction l as [|a l IH]; [reflexivity|].
  cbn [rev]. rewrite joined_snoc, length_rev, IH.
  destruct l as [|b l].
  - reflexivity.
  - cbn [length Nat.ltb Nat.leb].
    rewrite (join_cons separator a (b :: l)) by discriminate.
    rewrite !len_app. lia.
Qed.

(** The walk stops at the first prefix of the visited chunks whose joined
    length reaches [overlap_size]. *)
Lemma estimate_walk_least (rest : list str) :
  forall pre : list str,
    (forall j, (1 <= j <= length pre)%nat ->
               joined (firstn j (pre ++ rest)) < overlap_size) ->
    match estimate_walk (len separator) overlap_size rest (length pre)
                        (joined pre) with
    | Some r =>
        (length pre < r <= length pre + length rest)%nat
        /\ overlap_size <= joined (firstn r (pre ++ rest))
        /\ (forall j, (1 <= j < r)%nat ->
                      joined (firstn j (pre ++ rest)) < overlap_size)
    | None =>
        forall j, (1 <= j <= length (pre ++ rest))%nat ->
                  joined (firstn j (pre ++ rest)) < overlap_size
    end.
Proof.
  induction rest as [|c rest IH]; intros pre Hbefore.
  - cbn [estimate_walk]. now rewrite app_nil_r in *.
  - cbn [estimate_walk]. rewrite <- joined_snoc.
    assert (Hsplit : pre ++ c :: rest = (pre ++ [c]) ++ rest)
      by now rewrite <- app_assoc.
    assert (Htake : firstn (S (length pre)) (pre ++ c :: rest) = pre ++ [c]).
    { rewrite Hsplit. apply take_app_length'. rewrite length_app. cbn. lia. }
    destruct (Z.geb_spec (joined (pre ++ [c])) overlap_size) as [Hge|Hlt].
    + split; [cbn [length]; lia|]. split; [now rewrite Htake|].
      intros j Hj. apply Hbefore. lia.
    + specialize (IH (pre ++ [c])).
      replace (length (pre ++ [c])) with (S (length pre)) in IH
        by (rewrite length_app; cbn; lia).
      rewrite <- Hsplit in IH.
      assert (Hbefore' : forall j, (1 <= j <= S (length pre))%nat ->
                joined (firstn j (pre ++ c :: rest)) < overlap_size).
      { intros j Hj. destruct (Nat.eq_dec j (S (length pre))) as [->|Hne].
        - now rewrite Htake.
        - apply Hbefore. lia. }
      specialize (IH Hbefore').
      destruct (estimate_walk _ _ rest _ _) as [r|].
      * destruct IH as (Hr & Hmeet & Hleast).
        split; [cbn [length]; lia|]. split; assumption.
      * exact IH.
Qed.

(** The number returned is the least [k >= 1] such that the last [k]
    chunks, joined on the separator, are at least [overlap_size] long, and
    the number of chunks when no tail is that long. *)
Lemma estimate_least_tail (chunks : list str) :
  chunks <> [] ->
  let kept := _estimate_chunks_for_overlap chunks overlap_size separator in
  (1 <= kept <= length chunks)%nat
  /\ (overlap_size <= joined (lastn kept chunks) \/ kept = length chunks)
  /\ (forall k, (1 <= k < kept)%nat ->
                joined (lastn k chunks) < overlap_size).
Proof.
  intros Hne kept. subst kept. unfold _estimate_chunks_for_overlap.
  apply truthy_true in Hne. rewrite Hne. cbn [negb].
  assert (Htail : forall j, joined (firstn j (rev chunks))
                            = joined (lastn j chunks)).
  { intros j. unfold lastn. now rewrite firstn_rev, joined_rev. }
  assert (Hlen : (0 < length chunks)%nat).
  { destruct chunks; [discriminate | cbn; lia]. }
  pose proof (estimate_walk_least (rev chunks) []) as Hwalk.
  cbn [app length] in Hwalk. change (joined []) with 0 in Hwalk.
  specialize (Hwalk ltac:(intros j Hj; lia)).
  destruct (estimate_walk _ _ (rev chunks) 0 0) as [r|].
  - destruct Hwalk as (Hr & Hmeet & Hleast). rewrite length_rev in Hr.
    split; [lia|]. split; [left; now rewrite <- Htail|].
    intros k Hk. rewrite <- Htail. now apply Hleast.
  - rewrite length_rev in Hwalk. split; [lia|]. split; [now right|].
    intros k Hk. rewrite <- Htail. apply Hwalk. lia.
Qed.
End Estimate.

(** For a list of chunks that is not empty, [_estimate_chunks_for_overlap]
    returns the least [k >= 1] such that the last [k] chunks joined on the
    separator are at least [overlap_size] long, and the number of chunks
    when no tail is that long; it never returns 0, whatever
    [overlap_size]. *)
Theorem estimate_chunks_least_tail (chunks : list str) (overlap_size : Z)
  (separator : str) :
  chunks <> [] ->
  let kept := _estimate_chunks_for_overlap chunks overlap_size separator in
  (1 <= kept <= length chunks)%nat
  /\ (overlap_size <= len (join separator (lastn kept chunks))
      \/ kept = length chunks)
  /\ (forall k, (1 <= k < kept)%nat ->
                len (join separator (lastn k chunks)) < overlap_size).
Proof. apply estimate_least_tail. Qed.

Lemma estimate_chunks_least_tail_witness :
  [s2l "aa"; s2l "bb"; s2l "cc"] <> []
  /\ (1 <= _estimate_chunks_for_overlap [s2l "aa"; s2l "bb"; s2l "cc"] 4
                                         (s2l ",")
       <= 3)%nat.
Proof.
  assert (Hne : [s2l "aa"; s2l "bb"; s2l "cc"] <> []) by discriminate.
  split; [exact Hne|].
  exact (proj1 (estimate_chunks_least_tail [s2l "aa"; s2l "bb"; s2l "cc"] 4
                  (s2l ",") Hne)).
Defined.

Example estimate_chunks_run :
  _estimate_chunks_for_overlap [s2l "aa"; s2l "bb"; s2l "cc"] 4 (s2l ",")
  = 2%nat
  /\ _estimate_chunks_for_overlap [s2l "aa"; s2l "bb"; s2l "cc"] 0 (s2l ",")
     = 1%nat
  /\ _estimate_chunks_for_overlap [s2l "aa"; s2l "bb"; s2l "cc"] 99 (s2l ",")
     = 3%nat.
Proof. repeat split. Qed.

(** ** The separator mode of [chunk_text] *)

Lemma between_app {A : Type} (l l' : list A) (b : nat * nat) :
  (fst b <= snd b <= length l)%nat -> between (l ++ l') b = between l b.
Proof.
  intros Hb. unfold between.
  rewrite skipn_app, firstn_app, length_skipn.
  replace (snd b - fst b - (length l - fst b))%nat with 0%nat by lia.
  cbn [firstn]. apply app_nil_r.
Qed.

Lemma between_to_end {A : Type} (l : list A) (c : nat) :
  between l (c, length l) = skipn c l.
Proof.
  unfold between. cbn [fst snd]. apply firstn_all2.
  rewrite length_skipn. lia.
Qed.

Lemma skipn_snoc {A : Type} (l : list A) (x : A) (c : nat) :
  (c <= length l)%nat -> skipn c (l ++ [x]) = skipn c l ++ [x].
Proof.
  intros Hc. rewrite skipn_app.
  replace (c - length l)%nat with 0%nat by lia. reflexivity.
Qed.

Section SeparatorWindows.
Variables (chunk_size chunk_overlap : Z) (separator : str).

Local Abbreviation step := (chunk_step chunk_size chunk_overlap separator).
Local Abbreviation invariant := (window_invariant separator).

(** One iteration either appends the segment to the current chunk, or
    closes the current chunk, which is then not empty, keeps an end of it
    and appends the segment to that. *)
Lemma chunk_step_closes (a : acc) (piece : str) :
  piece <> [] ->
  (chunks (step a piece) = chunks a
   /\ current_chunk (step a piece) = current_chunk a ++ [piece])
  \/ (current_chunk a <> []
      /\ chunks (step a piece)
         = chunks a ++ [join separator (current_chunk a)]
      /\ exists n : nat,
           (n <= length (current_chunk a))%nat
           /\ current_chunk (step a piece)
              = skipn n (current_chunk a) ++ [piece]).
Proof.
  intros Hp. apply truthy_true in Hp. unfold chunk_step. rewrite Hp.
  cbn [negb].
  destruct (truthy (current_chunk a)) eqn:Hcur; cbn [andb];
    [|left; split; reflexivity].
  destruct (_ >? _); cbn [chunks current_chunk]; [|left; split; reflexivity].
  right. split; [now destruct (current_chunk a)|]. split; [reflexivity|].
  rewrite slice_to_end by lia.
  set (n := Z.to_nat _).
  exists (Nat.min n (length (current_chunk a))). split; [lia|].
  f_equal. destruct (Nat.le_ge_cases n (length (current_chunk a))).
  - now rewrite Nat.min_l.
  - rewrite Nat.min_r by assumption. now rewrite !skipn_all2 by lia.
Qed.

Lemma window_invariant_widen (seen : list str) (piece : str)
  (bounds : list (nat * nat)) :
  Forall (fun b => (fst b < snd b <= length seen)%nat) bounds ->
  map (fun b => join separator (between (seen ++ [piece]) b)) bounds
  = map (fun b => join separator (between seen b)) bounds
  /\ Forall (fun b => (fst b < snd b <= length (seen ++ [piece]))%nat) bounds.
Proof.
  intros Hb. split.
  - apply map_ext_in. intros b Hin.
    rewrite List.Forall_forall in Hb. specialize (Hb b Hin).
    rewrite between_app by lia. reflexivity.
  - eapply Forall_impl; [exact Hb|]. intros b Hlt. cbn beta in Hlt |- *.
    rewrite length_app. cbn [length]. lia.
Qed.

Lemma window_invariant_step (seen : list str) (a : acc) (piece : str) :
  piece <> [] ->
  invariant seen a -> invariant (seen ++ [piece]) (step a piece).
Proof.
  intros Hp (bounds & c & Hchunks & Hb & Hc & Hcur & Hcov & Hord & Hlast).
  destruct (window_invariant_widen seen piece bounds Hb) as [Hmap Hb'].
  assert (Hlen : length (seen ++ [piece]) = S (length seen))
    by (rewrite length_app; cbn [length]; lia).
  destruct (chunk_step_closes a piece Hp)
    as [[Hch Hnew]|(Hne & Hch & n & Hn & Hnew)].
  - exists bounds, c. rewrite Hch, Hnew, Hmap, Hlen.
    split; [exact Hchunks|]. split; [now rewrite <- Hlen|].
    split; [lia|]. split; [now rewrite Hcur, skipn_snoc|].
    split; [|split; [exact Hord|]].
    + intros j Hj. destruct (Nat.eq_dec j (length seen)) as [->|Hneq];
        [right; lia|]. apply Hcov. lia.
    + intros b Hb0. specialize (Hlast b Hb0). lia.
  - assert (Hcn : (c < length seen)%nat).
    { rewrite Hcur in Hne.
      destruct (Nat.lt_ge_cases c (length seen)) as [Hlt|Hge]; [exact Hlt|].
      now rewrite skipn_all2 in Hne by lia. }
    rewrite Hcur, length_skipn in Hn.
    exists (bounds ++ [(c, length seen)]), (c + n)%nat.
    rewrite Hch, Hnew, Hlen.
    split; [|split; [|split; [|split; [|split; [|split]]]]].
    + rewrite map_app, Hmap, Hchunks. cbn [map]. do 3 f_equal.
      rewrite between_app by (cbn [fst snd]; lia).
      now rewrite between_to_end.
    + rewrite <- Hlen. apply Forall_app. split; [exact Hb'|].
      constructor; [|constructor]. cbn [fst snd]. lia.
    + lia.
    + rewrite Hcur, skipn_skipn, (Nat.add_comm n c), skipn_snoc by lia.
      reflexivity.
    + intros j Hj. destruct (Nat.eq_dec j (length seen)) as [->|Hneq];
        [right; lia|].
      left. destruct (Hcov j ltac:(lia)) as [(b & Hin & Hjb)|Hcj].
      * exists b. split; [apply in_or_app; now left | exact Hjb].
      * exists (c, length seen).
        split; [apply in_or_app; right; now left | cbn [fst snd]; lia].
    + intros i b b' Hi HSi.
      destruct (Nat.lt_ge_cases (S i) (length bounds)) as [Hlt|Hge].
      * rewrite lookup_app_l in Hi, HSi by lia. eapply Hord; eassumption.
      * assert (Hi' : S i = length bounds).
        { apply lookup_lt_Some in HSi. rewrite length_app in HSi.
          cbn [length] in HSi. lia. }
        rewrite lookup_app_l in Hi by lia.
        rewrite lookup_app_r, Hi', Nat.sub_diag in HSi by lia.
        injection HSi as <-.
        assert (Hl : last bounds = Some b).
        { rewrite last_lookup. rewrite <- Hi'. exact Hi. }
        specialize (Hlast b Hl). unfold follows. cbn [fst snd]. lia.
    + intros b Hl. rewrite last_snoc in Hl. injection Hl as <-.
      cbn [fst snd]. lia.
Qed.

Lemma window_invariant_fold (segs : list str) :
  Forall (fun s => s <> []) segs ->
  forall (seen : list str) (a : acc),
    invariant seen a -> invariant (seen ++ segs) (fold_left step segs a).
Proof.
  induction 1 as [|piece segs Hp _ IH]; intros seen a Hinv.
  - now rewrite app_nil_r.
  - cbn [fold_left].
    replace (seen ++ piece :: segs) with ((seen ++ [piece]) ++ segs)
      by now rewrite <- app_assoc.
    apply IH. now apply window_invariant_step.
Qed.

(** The separator loop drops no segment, position by position: over
    non-empty segments every chunk is the join of a window of the segments
    that is not empty, the windows follow one another, and every position
    is in a window. *)
Lemma chunk_loop_covers_every_position (segs : list str) :
  Forall (fun s => s <> []) segs ->
  exists bounds : list (nat * nat),
    emit_last separator (chunk_loop chunk_size chunk_overlap separator segs)
    = map (fun b => join separator (between segs b)) bounds
    /\ Forall (fun b => (fst b < snd b <= length segs)%nat) bounds
    /\ (forall j : nat,
          (j < length segs)%nat ->
          exists b, In b bounds /\ (fst b <= j < snd b)%nat)
    /\ (forall (i : nat) (b b' : nat * nat),
          bounds !! i = Some b -> bounds !! S i = Some b' -> follows b b').
Proof.
  intros Hsegs.
  assert (Hstart : invariant [] (mkAcc [] [] 0)).
  { exists [], 0%nat. cbn.
    repeat split; try constructor; try lia; intros; discriminate. }
  pose proof (window_invariant_fold segs Hsegs [] _ Hstart) as Hend.
  cbn [app] in Hend.
  change (fold_left step segs (mkAcc [] [] 0))
    with (chunk_loop chunk_size chunk_overlap separator segs) in Hend.
  destruct Hend as (bounds & c & Hchunks & Hb & Hc & Hcur & Hcov & Hord & Hlast).
  unfold emit_last. rewrite Hcur.
  destruct (Nat.lt_ge_cases c (length segs)) as [Hlt|Hge].
  - assert (Ht : truthy (skipn c segs) = true).
    { apply truthy_true. intros Hnil.
      apply (f_equal (@length str)) in Hnil.
      rewrite length_skipn in Hnil. cbn [length] in Hnil. lia. }
    rewrite Ht. exists (bounds ++ [(c, length segs)]).
    split; [|split; [|split]].
    + rewrite map_app, Hchunks. cbn [map]. now rewrite between_to_end.
    + apply Forall_app. split; [exact Hb|].
      constructor; [|constructor]. cbn [fst snd]. lia.
    + intros j Hj. destruct (Hcov j Hj) as [(b & Hin & Hjb)|Hcj].
      * exists b. split; [apply in_or_app; now left | exact Hjb].
      * exists (c, length segs).
        split; [apply in_or_app; right; now left | cbn [fst snd]; lia].
    + intros i b b' Hi HSi.
      destruct (Nat.lt_ge_cases (S i) (length bounds)) as [Hlt'|Hge'].
      * rewrite lookup_app_l in Hi, HSi by lia. eapply Hord; eassumption.
      * assert (Hi' : S i = length bounds).
        { apply lookup_lt_Some in HSi. rewrite length_app in HSi.
          cbn [length] in HSi. lia. }
        rewrite lookup_app_l in Hi by lia.
        rewrite lookup_app_r, Hi', Nat.sub_diag in HSi by lia.
        injection HSi as <-.
        assert (Hl : last bounds = Some b).
        { rewrite last_lookup. rewrite <- Hi'. exact Hi. }
        specialize (Hlast b Hl). unfold follows. cbn [fst snd]. lia.
  - rewrite skipn_all2 by lia. cbn [truthy]. exists bounds.
    split; [exact Hchunks|]. split; [exact Hb|]. split; [|exact Hord].
    intros j Hj. destruct (Hcov j Hj) as [Hin|Hcj]; [exact Hin | lia].
Qed.
End SeparatorWindows.

(** When the separator occurs in the text, no segment is dropped.  With
    [segs] the non-empty segments in their order, every chunk is the join
    of a window [segs[lo:hi]] that is not empty; every position of [segs]
    lies in one of the windows, so a segment that occurs twice is kept
    twice; and the windows come in order, each starting inside the one
    before it or right at its end, and ending further on. *)
Theorem chunk_text_keeps_every_segment (text : str)
  (chunk_size chunk_overlap : Z) (separator : str) (splits : list str) :
  split text separator = Ok splits -> length splits <> 1%nat ->
  let segs := List.filter truthy splits in
  exists bounds : list (nat * nat),
    chunk_text text chunk_size chunk_overlap separator
    = Ok (map (fun b => join separator (between segs b)) bounds)
    /\ Forall (fun b => (fst b < snd b <= length segs)%nat) bounds
    /\ (forall j : nat,
          (j < length segs)%nat ->
          exists b, In b bounds /\ (fst b <= j < snd b)%nat)
    /\ (forall (i : nat) (b b' : nat * nat),
          bounds !! i = Some b -> bounds !! S i = Some b' -> follows b b').
Proof.
  intros Hsplit Hmany segs.
  assert (Hsegs : Forall (fun s : str => s <> []) segs).
  { apply List.Forall_forall. intros seg Hin.
    apply List.filter_In in Hin as [_ Ht]. now apply truthy_true. }
  destruct (chunk_loop_covers_every_position chunk_size chunk_overlap
              separator segs Hsegs) as (bounds & Hruns & Hrest).
  exists bounds. split; [|exact Hrest].
  unfold chunk_text.
  destruct text as [|c text].
  { destruct separator; [discriminate|]. cbn in Hsplit.
    injection Hsplit as <-. cbn in Hmany. congruence. }
  cbn [truthy negb]. rewrite Hsplit.
  destruct (Nat.eqb_spec (length splits) 1); [contradiction|].
  f_equal. rewrite <- Hruns. f_equal. apply chunk_loop_skips_empty.
Qed.

Lemma chunk_text_keeps_every_segment_witness :
  split (s2l "a,,b,a") (s2l ",") = Ok [s2l "a"; []; s2l "b"; s2l "a"]
  /\ exists bounds : list (nat * nat),
       chunk_text (s2l "a,,b,a") 3 0 (s2l ",")
       = Ok (map (fun b => join (s2l ",")
                             (between [s2l "a"; s2l "b"; s2l "a"] b)) bounds)
       /\ (forall j : nat,
             (j < 3)%nat -> exists b, In b bounds /\ (fst b <= j < snd b)%nat).
Proof.
  split; [reflexivity|].
  destruct (chunk_text_keeps_every_segment (s2l "a,,b,a") 3 0 (s2l ",")
              [s2l "a"; []; s2l "b"; s2l "a"] eq_refl ltac:(discriminate))
    as (bounds & Hruns & _ & Hcov & _).
  exists bounds. split; [exact Hruns | exact Hcov].
Defined.

(** A segment that occurs twice is kept at both of its positions. *)
Example chunk_text_repeated_segment_run :
  chunk_text (s2l "a,b,a") 3 0 (s2l ",") = Ok [s2l "a,b"; s2l "b,a"]
  /\ chunk_text (s2l "a,b,a") 3 0 (s2l ",")
     = Ok (map (fun b => join (s2l ",")
                           (between [s2l "a"; s2l "b"; s2l "a"] b))
               [(0, 2); (1, 3)]%nat).
Proof. split; reflexivity. Qed.

Section SeparatorOverlap.
Variables (chunk_size chunk_overlap : Z) (separator : str).

Local Abbreviation step := (chunk_step chunk_size chunk_overlap separator).
Local Abbreviation estimate r :=
  (_estimate_chunks_for_overlap r chunk_overlap separator).

Lemma chunk_step_cases (a : acc) (piece : str) :
  piece <> [] ->
  (chunks (step a piece) = chunks a
   /\ current_chunk (step a piece) = current_chunk a ++ [piece])
  \/ (current_chunk a <> []
      /\ chunks (step a piece)
         = chunks a ++ [join separator (current_chunk a)]
      /\ current_chunk (step a piece)
         = lastn (estimate (current_chunk a)) (current_chunk a) ++ [piece]).
Proof.
  intros Hp. apply truthy_true in Hp. unfold chunk_step. rewrite Hp.
  cbn [negb].
  destruct (truthy (current_chunk a)) eqn:Hcur; cbn [andb];
    [|left; split; reflexivity].
  destruct (_ >? chunk_size); cbn [chunks current_chunk];
    [|left; split; reflexivity].
  right. split; [now apply truthy_true|]. split; [reflexivity|].
  rewrite slice_to_end by lia. unfold lastn. do 2 f_equal.
  unfold len. lia.
Qed.

Lemma carried_snoc (runs : list (list str)) (r' : list str) :
  carried separator chunk_overlap runs ->
  (forall r, last runs = Some r ->
     exists new, new <> [] /\ r' = lastn (estimate r) r ++ new) ->
  carried separator chunk_overlap (runs ++ [r']).
Proof.
  intros Hruns Hlast i r0 r1 Hi HSi.
  destruct (Nat.lt_ge_cases (S i) (length runs)) as [Hlt|Hge].
  - rewrite lookup_app_l in Hi, HSi by lia. eapply Hruns; eassumption.
  - assert (Hlen : S i = length runs).
    { apply lookup_lt_Some in HSi. rewrite length_app in HSi. cbn in HSi. lia. }
    rewrite lookup_app_l in Hi by lia.
    rewrite lookup_app_r, Hlen, Nat.sub_diag in HSi by lia.
    injection HSi as <-. apply Hlast.
    rewrite last_lookup, <- Hlen. exact Hi.
Qed.

Lemma overlap_invariant_step (a : acc) (piece : str) :
  piece <> [] ->
  overlap_invariant separator chunk_overlap a ->
  overlap_invariant separator chunk_overlap (step a piece).
Proof.
  intros Hp (runs & Hchunks & Hne & Hcarried & Hcur).
  destruct (chunk_step_cases a piece Hp) as [[Hc Hcc]|(Hnonempty & Hc & Hcc)].
  - exists runs. rewrite Hc, Hcc. repeat split; try assumption.
    intros r Hr. destruct (Hcur r Hr) as (new & Hnew & ->).
    exists (new ++ [piece]). split; [now destruct new|].
    now rewrite <- app_assoc.
  - exists (runs ++ [current_chunk a]). rewrite Hc, Hcc. repeat split.
    + now rewrite map_app, Hchunks.
    + apply Forall_app. split; [assumption|]. now repeat constructor.
    + now apply carried_snoc.
    + intros r Hr. rewrite last_snoc in Hr. injection Hr as <-.
      exists [piece]. split; [discriminate | reflexivity].
Qed.

Lemma overlap_invariant_fold (segs : list str) :
  Forall (fun s => s <> []) segs ->
  forall a : acc,
    overlap_invariant separator chunk_overlap a ->
    overlap_invariant separator chunk_overlap (fold_left step segs a).
Proof.
  induction 1 as [|piece segs Hp _ IH]; intros a Hinv; [exact Hinv|].
  cbn [fold_left]. apply IH. now apply overlap_invariant_step.
Qed.

(** The runs behind the chunks of the separator loop overlap as
    [carried] says. *)
Lemma chunk_loop_runs_carried (segs : list str) :
  Forall (fun s => s <> []) segs ->
  exists runs : list (list str),
    emit_last separator (chunk_loop chunk_size chunk_overlap separator segs)
    = map (join separator) runs
    /\ Forall (fun r => r <> []) runs
    /\ carried separator chunk_overlap runs.
Proof.
  intros Hsegs.
  assert (Hstart : overlap_invariant separator chunk_overlap (mkAcc [] [] 0)).
  { exists []. cbn. repeat split; [constructor | | discriminate].
    intros i r r' Hi. discriminate. }
  pose proof (overlap_invariant_fold segs Hsegs _ Hstart) as Hend.
  change (fold_left step segs (mkAcc [] [] 0))
    with (chunk_loop chunk_size chunk_overlap separator segs) in Hend.
  destruct Hend as (runs & Hchunks & Hne & Hcarried & Hcur).
  unfold emit_last.
  destruct (current_chunk (chunk_loop chunk_size chunk_overlap separator segs))
    as [|p cur] eqn:Hcc; cbn [truthy].
  - exists runs. repeat split; assumption.
  - exists (runs ++ [p :: cur]). repeat split.
    + now rewrite map_app, Hchunks.
    + apply Forall_app. split; [assumption|]. now repeat constructor.
    + now apply carried_snoc.
Qed.

(** A run and the run after it, joined: the second chunk begins with an
    end of the first. *)
Lemma carried_chunks_share (r r' new : list str) :
  r <> [] -> new <> [] -> r' = lastn (estimate r) r ++ new ->
  exists shared : str,
    shared `suffix_of` join separator r
    /\ shared `prefix_of` join separator r'
    /\ (chunk_overlap <= len shared \/ shared = join separator r).
Proof.
  intros Hr Hnew ->.
  destruct (estimate_least_tail separator chunk_overlap r Hr)
    as (Hrange & Hmeet & _).
  set (e := estimate r) in *.
  assert (Hkept : lastn e r <> []).
  { unfold lastn. intros Hnil. apply (f_equal (@length str)) in Hnil.
    rewrite length_skipn in Hnil. cbn in Hnil. lia. }
  exists (join separator (lastn e r)). split; [|split].
  - unfold lastn in *.
    pose proof (firstn_skipn (length r - e) r) as Hdecomp.
    remember (skipn (length r - e) r) as kept eqn:Ekept.
    remember (firstn (length r - e) r) as pre eqn:Epre.
    rewrite <- Hdecomp. destruct pre as [|p pre].
    + now exists [].
    + rewrite join_app by (assumption || discriminate).
      exists (join separator (p :: pre) ++ separator).
      now rewrite <- app_assoc.
  - rewrite join_app by assumption.
    now exists (separator ++ join separator new).
  - destruct Hmeet as [Hmeet| ->]; [now left|].
    right. unfold lastn. now rewrite Nat.sub_diag.
Qed.
End SeparatorOverlap.

(** When the separator occurs in the text, every chunk after the first
    begins with an end of the chunk before it, and that shared part is at
    least [chunk_overlap] characters long or is the whole chunk before. *)
Theorem chunk_text_consecutive_chunks_share (text : str)
  (chunk_size chunk_overlap : Z) (separator : str)
  (splits : list str) (cs : list str) :
  split text separator = Ok splits -> length splits <> 1%nat ->
  chunk_text text chunk_size chunk_overlap separator = Ok cs ->
  forall (i : nat) (c c' : str),
    cs !! i = Some c -> cs !! S i = Some c' ->
    exists shared : str,
      shared `suffix_of` c /\ shared `prefix_of` c'
      /\ (chunk_overlap <= len shared \/ shared = c).
Proof.
  intros Hsplit Hmany Hcs i c c' Hi HSi.
  assert (Hsegs : Forall (fun s : str => s <> []) (List.filter truthy splits)).
  { apply List.Forall_forall. intros seg Hin.
    apply List.filter_In in Hin as [_ Ht]. now apply truthy_true. }
  destruct (chunk_loop_runs_carried chunk_size chunk_overlap separator
              _ Hsegs) as (runs & Hruns & Hne & Hcarried).
  assert (Hcs' : cs = map (join separator) runs).
  { unfold chunk_text in Hcs. destruct text as [|ch text].
    { destruct separator; [discriminate|]. cbn in Hsplit.
      injection Hsplit as <-. cbn in Hmany. congruence. }
    cbn [truthy negb] in Hcs. rewrite Hsplit in Hcs.
    destruct (Nat.eqb_spec (length splits) 1); [contradiction|].
    injection Hcs as <-. rewrite <- Hruns. f_equal.
    apply chunk_loop_skips_empty. }
  subst cs. change (map ?f ?l) with (f <$> l) in Hi, HSi.
  apply list_lookup_fmap_Some in Hi as (r & -> & Hr).
  apply list_lookup_fmap_Some in HSi as (r' & -> & Hr').
  destruct (Hcarried i r r' Hr Hr') as (new & Hnew & Heq).
  eapply carried_chunks_share; [|exact Hnew|exact Heq].
  eapply Forall_lookup_1 in Hne; [exact Hne | exact Hr].
Qed.

Lemma chunk_text_consecutive_chunks_share_witness :
  split (s2l "aa,bb,cc,dd") (s2l ",")
  = Ok [s2l "aa"; s2l "bb"; s2l "cc"; s2l "dd"]
  /\ chunk_text (s2l "aa,bb,cc,dd") 5 2 (s2l ",")
     = Ok [s2l "aa,bb"; s2l "bb,cc"; s2l "cc,dd"]
  /\ exists shared : str,
       shared `suffix_of` s2l "aa,bb" /\ shared `prefix_of` s2l "bb,cc"
       /\ (2 <= len shared \/ shared = s2l "aa,bb").
Proof.
  split; [reflexivity|]. split; [reflexivity|].
  exact (chunk_text_consecutive_chunks_share (s2l "aa,bb,cc,dd") 5 2 (s2l ",")
           _ _ eq_refl ltac:(discriminate) eq_refl 0%nat _ _ eq_refl eq_refl).
Defined.

(** ** [chunk_markdown] *)

Lemma linked_snoc {A : Type} (P : A -> A -> Prop) (l : list A) (y : A) :
  linked P l -> (forall x, last l = Some x -> P x y) -> linked P (l ++ [y]).
Proof.
  intros Hl Hlast i x0 x1 Hi HSi.
  destruct (Nat.lt_ge_cases (S i) (length l)) as [Hlt|Hge].
  - rewrite lookup_app_l in Hi, HSi by lia. eapply Hl; eassumption.
  - assert (Hlen : S i = length l).
    { apply lookup_lt_Some in HSi. rewrite length_app in HSi. cbn in HSi. lia. }
    rewrite lookup_app_l in Hi by lia.
    rewrite lookup_app_r, Hlen, Nat.sub_diag in HSi by lia.
    injection HSi as <-. apply Hlast.
    rewrite last_lookup, <- Hlen. exact Hi.
Qed.

Lemma nth_skipn_shift {A : Type} (d : A) (l : list A) :
  forall a j : nat, nth (a + j) l d = nth j (skipn a l) d.
Proof.
  induction l as [|x l IH]; intros a j.
  - rewrite skipn_nil. now destruct (a + j)%nat, j.
  - destruct a as [|a]; [reflexivity|]. cbn [Nat.add nth skipn]. apply IH.
Qed.

Lemma item_or_empty_nth (splits : list str) (i : Z) :
  0 <= i -> item_or_empty splits i = nth (Z.to_nat i) splits [].
Proof.
  intros Hi. unfold item_or_empty.
  destruct (Z.ltb_spec i (len splits)); [reflexivity|].
  symmetry. apply nth_overflow. unfold len in *. lia.
Qed.

Lemma concat_firstn_4 (l : list str) :
  concat (firstn 4 l) = nth 0 l [] ++ nth 1 l [] ++ nth 2 l [] ++ nth 3 l [].
Proof.
  destruct l as [|a [|b [|c [|d l]]]]; cbn; now rewrite ?app_nil_r.
Qed.

(** The section at index [4k] is made of the four items from [4k] on. *)
Lemma section_at_group (splits : list str) (k : nat) :
  section_at splits (0 + Z.of_nat k * 4)
  = concat (firstn 4 (skipn (4 * k) splits)).
Proof.
  unfold section_at. rewrite !item_or_empty_nth by lia.
  rewrite concat_firstn_4, <- !nth_skipn_shift.
  replace (Z.to_nat (0 + Z.of_nat k * 4)) with (4 * k + 0)%nat by lia.
  replace (Z.to_nat (0 + Z.of_nat k * 4 + 1)) with (4 * k + 1)%nat by lia.
  replace (Z.to_nat (0 + Z.of_nat k * 4 + 2)) with (4 * k + 2)%nat by lia.
  replace (Z.to_nat (0 + Z.of_nat k * 4 + 3)) with (4 * k + 3)%nat by lia.
  reflexivity.
Qed.

Lemma firstn_add {A : Type} (l : list A) :
  forall a b : nat, firstn (a + b) l = firstn a l ++ firstn b (skipn a l).
Proof.
  induction l as [|x l IH]; intros a b.
  - now rewrite skipn_nil, !firstn_nil.
  - destruct a as [|a]; [reflexivity|].
    cbn [Nat.add firstn skipn app]. f_equal. apply IH.
Qed.

Lemma concat_groups (splits : list str) (m : nat) :
  concat (map (fun k => concat (firstn 4 (skipn (4 * k) splits))) (seq 0 m))
  = concat (firstn (4 * m) splits).
Proof.
  induction m as [|m IH]; [reflexivity|].
  rewrite seq_S, map_app, concat_app, IH. cbn [Nat.add map concat].
  rewrite app_nil_r, <- concat_app. f_equal.
  replace (4 * S m)%nat with (4 * m + 4)%nat by lia.
  symmetry. apply firstn_add.
Qed.

(** The sections, put end to end, are the splits put end to end. *)
Lemma markdown_sections_concat (splits : list str) :
  concat (markdown_sections splits) = concat splits.
Proof.
  unfold markdown_sections, range. cbn [Z.eqb Z.ltb Z.compare].
  rewrite map_map.
  rewrite (map_ext _ (fun k => concat (firstn 4 (skipn (4 * k) splits))))
    by apply section_at_group.
  rewrite concat_groups. f_equal. apply firstn_all2.
  assert (Hq : len splits - 0 + 4 - 1 < 4 * ((len splits - 0 + 4 - 1) / 4 + 1)).
  { pose proof (Z.mul_succ_div_gt (len splits - 0 + 4 - 1) 4 ltac:(lia)). lia. }
  assert (0 <= (len splits - 0 + 4 - 1) / 4).
  { apply Z.div_pos; [pose proof (len_nonneg splits)|]; lia. }
  unfold len in *. lia.
Qed.

Section Markdown.
Variables (chunk_size chunk_overlap : Z).

Local Abbreviation step := (markdown_step chunk_size chunk_overlap).

Lemma carry_over_none (c : str) : chunk_overlap <= 0 -> carry_over chunk_overlap c = [].
Proof.
  intros Ho. unfold carry_over.
  now destruct (Z.gtb_spec (Z.min (len c) chunk_overlap) 0); [lia|].
Qed.

(** With an overlap that is positive, what is carried over is the end of
    the chunk, [min(len(chunk), chunk_overlap)] characters long. *)
Lemma carry_over_suffix (c : str) :
  0 < chunk_overlap ->
  carry_over chunk_overlap c `suffix_of` c
  /\ len (carry_over chunk_overlap c) = Z.min (len c) chunk_overlap.
Proof.
  intros Ho. unfold carry_over.
  pose proof (len_nonneg c) as Hc.
  destruct (Z.gtb_spec (Z.min (len c) chunk_overlap) 0) as [Hpos|Hzero].
  - set (k := Z.min (len c) chunk_overlap) in *.
    assert (Hs : slice c (- k) (len c) = skipn (Z.to_nat (len c - k)) c).
    { unfold slice, clamp_index.
      destruct (Z.ltb_spec (- k) 0); [|lia].
      destruct (Z.ltb_spec (len c) 0); [lia|].
      rewrite Z.min_id. replace (Z.max 0 (- k + len c)) with (len c - k) by lia.
      apply firstn_all2. rewrite length_skipn. unfold len in *. lia. }
    rewrite Hs. split.
    + exists (firstn (Z.to_nat (len c - k)) c). now rewrite firstn_skipn.
    + unfold len in *. rewrite length_skipn. lia.
  - assert (c = []) as ->.
    { destruct c; [reflexivity|]. unfold len in *. cbn [length] in *. lia. }
    split; [now exists [] | unfold len; cbn [length]; lia].
Qed.

(** The loop closes a chunk only when it is not empty, so no chunk is
    empty. *)
Lemma markdown_fold_nonempty (sections : list str) :
  forall st : list str * str,
    Forall (fun c => c <> []) (fst st) ->
    Forall (fun c => c <> []) (fst (fold_left step sections st)).
Proof.
  induction sections as [|sec sections IH]; intros [chunks cur] Hne;
    [exact Hne|].
  cbn [fold_left]. apply IH. unfold markdown_step.
  destruct (truthy cur) eqn:Hcur; cbn [andb fst]; [|exact Hne].
  destruct (_ >? chunk_size); cbn [fst]; [|exact Hne].
  apply Forall_app. split; [exact Hne|].
  constructor; [now apply truthy_true | constructor].
Qed.

(** Without overlap the loop only moves text from the sections to the
    chunks. *)
Lemma markdown_fold_concat (sections : list str) :
  chunk_overlap <= 0 ->
  forall st : list str * str,
    concat (fst (fold_left step sections st)) ++ snd (fold_left step sections st)
    = concat (fst st) ++ snd st ++ concat sections.
Proof.
  intros Ho. induction sections as [|sec sections IH]; intros [chunks cur].
  - cbn. now rewrite app_nil_r.
  - cbn [fold_left]. rewrite IH. unfold markdown_step.
    destruct (truthy cur && _); cbn [fst snd concat].
    + rewrite carry_over_none by assumption.
      rewrite concat_app. cbn [concat app]. rewrite app_nil_r.
      now rewrite <- !app_assoc.
    + now rewrite <- !app_assoc.
Qed.

(** Every closed chunk hands its [carry_over] to the chunk after it, and the
    last closed chunk to the chunk being built. *)
Lemma markdown_fold_linked (sections : list str) :
  forall st : list str * str,
    linked (fun c c' => carry_over chunk_overlap c `prefix_of` c') (fst st) ->
    (forall c, last (fst st) = Some c ->
               carry_over chunk_overlap c `prefix_of` snd st) ->
    let st' := fold_left step sections st in
    linked (fun c c' => carry_over chunk_overlap c `prefix_of` c') (fst st')
    /\ (forall c, last (fst st') = Some c ->
                  carry_over chunk_overlap c `prefix_of` snd st').
Proof.
  induction sections as [|sec sections IH]; intros [chunks cur] Hl Hcur;
    [split; assumption|].
  cbn [fold_left]. apply IH; unfold markdown_step;
    destruct (truthy cur && _); cbn [fst snd] in *.
  - now apply linked_snoc.
  - exact Hl.
  - intros c Hc. rewrite last_snoc in Hc. injection Hc as <-.
    now exists sec.
  - intros c Hc. now apply prefix_app_r, Hcur.
Qed.
End Markdown.

(** With [chunk_overlap <= 0] the chunks of [chunk_markdown], put end to
    end, are the pieces [re.split] returned put end to end: nothing is
    dropped, repeated or reordered.  So when those pieces make up the text,
    the chunks make up the text. *)
Theorem chunk_markdown_concat (re_split : str -> list str) (text : str)
  (chunk_size chunk_overlap : Z) :
  chunk_overlap <= 0 ->
  concat (chunk_markdown re_split text chunk_size chunk_overlap)
  = concat (re_split text).
Proof.
  intros Ho. unfold chunk_markdown, chunk_markdown_splits.
  pose proof (markdown_fold_concat chunk_size chunk_overlap
                (markdown_sections (re_split text)) Ho ([], [])) as Hfold.
  destruct (fold_left _ _ _) as [chunks cur]. cbn [fst snd concat app] in Hfold.
  rewrite markdown_sections_concat in Hfold. rewrite <- Hfold.
  destruct cur as [|ch cur]; cbn [truthy].
  - now rewrite app_nil_r.
  - rewrite concat_app. cbn [concat]. now rewrite app_nil_r.
Qed.

Lemma chunk_markdown_concat_witness :
  0 <= 0
  /\ concat (chunk_markdown
               (fun _ => [s2l "intro"; [ascii_of_nat 10]; s2l "# Title";
                          [ascii_of_nat 10]; s2l "body"])
               (s2l "ignored") 6 0)
     = concat [s2l "intro"; [ascii_of_nat 10]; s2l "# Title";
               [ascii_of_nat 10]; s2l "body"].
Proof.
  split; [lia|].
  exact (chunk_markdown_concat
           (fun _ => [s2l "intro"; [ascii_of_nat 10]; s2l "# Title";
                      [ascii_of_nat 10]; s2l "body"])
           (s2l "ignored") 6 0 ltac:(lia)).
Defined.

(** [chunk_markdown] never returns an empty chunk, whatever [re.split]
    returned; and with [chunk_overlap > 0] every chunk after the first
    begins with the last [min(len(previous), chunk_overlap)] characters of
    the chunk before it. *)
Theorem chunk_markdown_chunks_overlap (re_split : str -> list str) (text : str)
  (chunk_size chunk_overlap : Z) :
  let cs := chunk_markdown re_split text chunk_size chunk_overlap in
  Forall (fun c => c <> []) cs
  /\ (0 < chunk_overlap ->
      forall (i : nat) (c c' : str),
        cs !! i = Some c -> cs !! S i = Some c' ->
        exists shared : str,
          shared `suffix_of` c /\ shared `prefix_of` c'
          /\ len shared = Z.min (len c) chunk_overlap).
Proof.
  intros cs. subst cs. unfold chunk_markdown, chunk_markdown_splits.
  pose proof (markdown_fold_nonempty chunk_size chunk_overlap
                (markdown_sections (re_split text)) ([], [])
                ltac:(constructor)) as Hne.
  pose proof (markdown_fold_linked chunk_size chunk_overlap
                (markdown_sections (re_split text)) ([], [])
                ltac:(intros i x y Hi; discriminate)
                ltac:(intros c Hc; discriminate)) as [Hl Hcur].
  destruct (fold_left _ _ _) as [chunks cur]. cbn [fst snd] in *.
  split.
  - destruct cur as [|ch cur]; cbn [truthy]; [exact Hne|].
    apply Forall_app. split; [exact Hne|]. now repeat constructor.
  - intros Ho i c c' Hi HSi.
    assert (Hlinked : linked (fun c c' => carry_over chunk_overlap c `prefix_of` c')
                        (if truthy cur then chunks ++ [cur] else chunks)).
    { destruct (truthy cur); [now apply linked_snoc | exact Hl]. }
    exists (carry_over chunk_overlap c).
    destruct (carry_over_suffix chunk_overlap c Ho) as [Hsuf Hlen].
    split; [exact Hsuf|]. split; [|exact Hlen].
    eapply Hlinked; eassumption.
Qed.

Lemma chunk_markdown_chunks_overlap_witness :
  0 < 2
  /\ chunk_markdown (fun _ => [s2l "intro"; [ascii_of_nat 10]; s2l "# Title";
                               [ascii_of_nat 10]; s2l "body"])
       (s2l "ignored") 6 2
     = [s2l "intro" ++ [ascii_of_nat 10] ++ s2l "# Title" ++ [ascii_of_nat 10];
        [ascii_of_nat 101; ascii_of_nat 10] ++ s2l "body"]
  /\ exists shared : str,
       shared `suffix_of`
         (s2l "intro" ++ [ascii_of_nat 10] ++ s2l "# Title" ++ [ascii_of_nat 10])
       /\ shared `prefix_of` ([ascii_of_nat 101; ascii_of_nat 10] ++ s2l "body")
       /\ len shared
          = Z.min (len (s2l "intro" ++ [ascii_of_nat 10] ++ s2l "# Title"
                        ++ [ascii_of_nat 10])) 2.
Proof.
  split; [lia|]. split; [reflexivity|].
  exact (proj2 (chunk_markdown_chunks_overlap
                  (fun _ => [s2l "intro"; [ascii_of_nat 10]; s2l "# Title";
                             [ascii_of_nat 10]; s2l "body"])
                  (s2l "ignored") 6 2)
               ltac:(lia) 0%nat _ _ eq_refl eq_refl).
Defined.

(** ** The retry policy of [generate] *)

Section RetryPolicy.
Import OpenAIProvider.
Variable self : t.

Local Abbreviation backoff :=
  (fun i : nat => retry_delay self * 2 ^ Z.of_nat i).

Lemma attempts_of_seq :
  attempts_of self = map Z.of_nat (seq 0 (Z.to_nat (max_retries self))).
Proof.
  unfold attempts_of, range. cbn [Z.eqb Z.ltb Z.compare].
  replace ((max_retries self - 0 + 1 - 1) / 1) with (max_retries self)
    by (rewrite Z.div_1_r; lia).
  apply map_ext. intros k. lia.
Qed.

Lemma attempt_loop_first_success (r : completion) (j : nat) :
  forall (a m : nat) (w : world),
    (j < m)%nat -> Z.of_nat (a + m) = max_retries self ->
    (forall i, (i < j)%nat ->
               exists e, chat (api self) (requests w + i) = Raise e) ->
    chat (api self) (requests w + j) = Ok r ->
    attempt_loop self (map Z.of_nat (seq a m)) w
    = (Some (first_content r),
       mkWorld (requests w + j + 1) (slept w ++ map backoff (seq a j))).
Proof.
  induction j as [|j IH]; intros a m w Hm Hn Hfail Hok;
    (destruct m as [|m]; [lia|]); cbn [seq map attempt_loop].
  - rewrite Nat.add_0_r in Hok. rewrite Hok. unfold sent.
    rewrite app_nil_r. do 2 f_equal. lia.
  - destruct (Hfail 0%nat ltac:(lia)) as [e He].
    rewrite Nat.add_0_r in He. rewrite He.
    destruct (Z.ltb_spec (Z.of_nat a) (max_retries self - 1)); [|lia].
    rewrite (IH (S a) m); cbn [sleep sent requests slept].
    + rewrite <- app_assoc. do 2 f_equal. lia.
    + lia.
    + lia.
    + intros i Hi. replace (S (requests w) + i)%nat
        with (requests w + S i)%nat by lia. apply Hfail. lia.
    + replace (S (requests w) + j)%nat with (requests w + S j)%nat by lia.
      exact Hok.
Qed.

Lemma attempt_loop_all_fail (m : nat) :
  forall (a : nat) (w : world),
    (1 <= m)%nat -> Z.of_nat (a + m) = max_retries self ->
    (forall i, (i < m)%nat ->
               exists e, chat (api self) (requests w + i) = Raise e) ->
    attempt_loop self (map Z.of_nat (seq a m)) w
    = (Some [],
       mkWorld (requests w + m) (slept w ++ map backoff (seq a (m - 1)))).
Proof.
  induction m as [|m IH]; intros a w Hm Hn Hfail; [lia|].
  cbn [seq map attempt_loop].
  destruct (Hfail 0%nat ltac:(lia)) as [e He].
  rewrite Nat.add_0_r in He. rewrite He.
  destruct m as [|m].
  - destruct (Z.ltb_spec (Z.of_nat a) (max_retries self - 1)); [lia|].
    unfold sent. cbn [Nat.sub seq map]. rewrite app_nil_r.
    do 2 f_equal. lia.
  - destruct (Z.ltb_spec (Z.of_nat a) (max_retries self - 1)); [|lia].
    rewrite (IH (S a)); cbn [sleep sent requests slept].
    + replace (S (S m) - 1)%nat with (S m) by lia.
      replace (S m - 1)%nat with m by lia.
      cbn [seq map]. rewrite <- app_assoc. do 2 f_equal. lia.
    + lia.
    + lia.
    + intros i Hi. replace (S (requests w) + i)%nat
        with (requests w + S i)%nat by lia. apply Hfail. lia.
Qed.

(** [generate] returns the text of the first request that succeeds within
    [max_retries] attempts.  Before it, it has slept
    [retry_delay * 2**i] after the [i]-th failed attempt, and it sends no
    request after the one that succeeds. *)
Theorem generate_returns_first_success (prompt : str) (w : world)
  (j : nat) (r : completion) :
  Z.of_nat j < max_retries self ->
  (forall i, (i < j)%nat ->
             exists e, chat (api self) (requests w + i) = Raise e) ->
  chat (api self) (requests w + j) = Ok r ->
  generate self prompt w
  = (Some (first_content r),
     mkWorld (requests w + j + 1) (slept w ++ map backoff (seq 0 j))).
Proof.
  intros Hj Hfail Hok. unfold generate. rewrite attempts_of_seq.
  apply attempt_loop_first_success; try assumption; lia.
Qed.

(** When every one of the [max_retries >= 1] attempts fails, [generate]
    returns the empty string after exactly [max_retries] requests; it has
    slept after every failed attempt but the last. *)
Theorem generate_gives_up_after_max_retries (prompt : str) (w : world) :
  1 <= max_retries self ->
  (forall i, Z.of_nat i < max_retries self ->
             exists e, chat (api self) (requests w + i) = Raise e) ->
  generate self prompt w
  = (Some [],
     mkWorld (requests w + Z.to_nat (max_retries self))
             (slept w
              ++ map backoff (seq 0 (Z.to_nat (max_retries self) - 1)))).
Proof.
  intros Hn Hfail. unfold generate. rewrite attempts_of_seq.
  apply attempt_loop_all_fail; [lia | lia |].
  intros i Hi. apply Hfail. lia.
Qed.

(** With [max_retries <= 0] the loop body never runs: no request is sent
    and Python's [None] is returned, not a string. *)
Lemma generate_without_attempts (prompt : str) (w : world) :
  max_retries self <= 0 -> generate self prompt w = (None, w).
Proof.
  intros Hn. unfold generate. rewrite attempts_of_seq.
  replace (Z.to_nat (max_retries self)) with 0%nat by lia. reflexivity.
Qed.
End RetryPolicy.

Lemma generate_returns_first_success_witness :
  OpenAIProvider.generate (OpenAIProvider.init OpenAIProvider.flaky)
    (s2l "hi") OpenAIProvider.start
  = (Some (s2l "ok"), OpenAIProvider.mkWorld 2 [1]).
Proof.
  apply (generate_returns_first_success
           (OpenAIProvider.init OpenAIProvider.flaky) (s2l "hi")
           OpenAIProvider.start 1
           {| OpenAIProvider.choices := [Some (s2l "ok")] |}).
  - cbn. lia.
  - intros i Hi. exists BackendError. destruct i; [reflexivity | lia].
  - reflexivity.
Defined.

(** A client every request of which fails. *)
Lemma generate_gives_up_after_max_retries_witness :
  OpenAIProvider.generate
    (OpenAIProvider.init
       {| OpenAIProvider.chat := fun _ => Raise BackendError;
          OpenAIProvider.embed := fun _ => Raise BackendError |})
    (s2l "hi") OpenAIProvider.start
  = (Some [], OpenAIProvider.mkWorld 3 [1; 2]).
Proof.
  apply (generate_gives_up_after_max_retries
           (OpenAIProvider.init
              {| OpenAIProvider.chat := fun _ => Raise BackendError;
                 OpenAIProvider.embed := fun _ => Raise BackendError |})
           (s2l "hi") OpenAIProvider.start).
  - cbn. lia.
  - intros i Hi. now exists BackendError.
Defined.

(** ** More on the similarity utilities *)

Section SpecFloatMul.
Variables prec emax : Z.

Lemma SFmul_comm (x y : spec_float) : SFmul prec emax x y = SFmul prec emax y x.
Proof.
  destruct x as [sx|sx| |sx mx ex], y as [sy|sy| |sy my ey]; cbn [SFmul];
    rewrite ?(xorb_comm sx sy); try reflexivity.
  now rewrite (Pos.mul_comm mx my), (Z.add_comm ex ey).
Qed.

Lemma SFsub_diag (x : spec_float) :
  match x with
  | S754_zero _ | S754_finite _ _ _ => SFsub prec emax x x = S754_zero false
  | _ => True
  end.
Proof.
  destruct x as [s|s| |s m e]; [now destruct s | exact I | exact I |].
  cbn [SFsub]. now rewrite Z.sub_diag.
Qed.
End SpecFloatMul.

Local Open Scope float_scope.

Lemma float_mul_comm (x y : float) : x * y = y * x.
Proof. apply Prim2SF_inj. rewrite !mul_spec. apply SFmul_comm. Qed.

Lemma np_dot_comm (vec1 : list float) :
  forall (vec2 : list float) (s : float),
    fold_left (fun s p => s + fst p * snd p) (combine vec1 vec2) s
    = fold_left (fun s p => s + fst p * snd p) (combine vec2 vec1) s.
Proof.
  induction vec1 as [|x vec1 IH]; intros [|y vec2] s; try reflexivity.
  cbn [combine fold_left fst snd]. rewrite (float_mul_comm x y). apply IH.
Qed.

(** [cosine_similarity] gives the same float for [(a, b)] and [(b, a)]. *)
Theorem cosine_similarity_symmetric (a b : list float) :
  cosine_similarity a b = cosine_similarity b a.
Proof.
  unfold cosine_similarity. rewrite (guard_swap a b).
  destruct (_ || _ || negb _); [reflexivity|].
  assert (Hdot : np_dot a b = np_dot b a) by apply np_dot_comm.
  now rewrite Hdot, (orb_comm (np_norm a =? 0)),
    (float_mul_comm (np_norm a) (np_norm b)).
Qed.

(** A float that [is_finite] is a zero or a finite number of the
    specification. *)
Lemma is_finite_spec (x : float) :
  is_finite x = true ->
  match Prim2SF x with
  | S754_zero _ | S754_finite _ _ _ => True
  | _ => False
  end.
Proof.
  unfold is_finite, is_nan, is_infinity.
  rewrite !FloatAxioms.eqb_spec, abs_spec.
  destruct (Prim2SF x) as [s|s| |s m e]; try exact (fun _ => I).
  - destruct s; vm_compute; discriminate.
  - vm_compute. discriminate.
Qed.

Lemma float_sub_diag (x : float) : is_finite x = true -> x - x = 0.
Proof.
  intros Hx. apply is_finite_spec in Hx.
  apply Prim2SF_inj. rewrite sub_spec.
  pose proof (SFsub_diag prec emax (Prim2SF x)) as Hd.
  destruct (Prim2SF x); try contradiction; exact Hd.
Qed.

Lemma np_dot_zero_squares (vec : list float) :
  Forall (fun x => is_finite x = true) vec ->
  fold_left (fun s p => s + fst p * snd p)
            (combine (np_sub vec vec) (np_sub vec vec)) 0
  = 0.
Proof.
  induction 1 as [|x vec Hx _ IH]; [reflexivity|].
  unfold np_sub in *. cbn [combine map fold_left fst snd].
  rewrite (float_sub_diag x Hx). exact IH.
Qed.

(** The distance from a vector of finite floats to itself is exactly
    [0.0]. *)
Theorem euclidean_distance_to_self (a : list float) :
  a <> [] -> Forall (fun x => is_finite x = true) a ->
  euclidean_distance a a = 0.
Proof.
  intros Hne Hfin. unfold euclidean_distance.
  apply truthy_true in Hne. rewrite Hne, Nat.eqb_refl. cbn [negb orb].
  unfold np_norm, np_dot. now rewrite np_dot_zero_squares.
Qed.

Lemma euclidean_distance_to_self_witness :
  [1.5; -2] <> [] /\ euclidean_distance [1.5; -2] [1.5; -2] = 0.
Proof.
  assert (Hne : [1.5; -2] <> []) by discriminate.
  split; [exact Hne|].
  apply (euclidean_distance_to_self [1.5; -2] Hne).
  repeat constructor.
Defined.

(** With an infinite component the distance to itself is NaN. *)
Example euclidean_distance_infinite_self :
  is_nan (euclidean_distance [infinity] [infinity]) = true.
Proof. vm_compute. reflexivity. Qed.

Local Close Scope float_scope.

(** ** The embedding provider *)

Section Embeddings.
Import EmbeddingProvider.
Context {P : Type} `{Embedder P}.

Lemma embed_each_length (texts : list str) :
  forall (p p' : P) (es : list (list float)),
    embed_each texts p = (Ok es, p') -> length es = length texts.
Proof.
  induction texts as [|text texts IH]; intros p p' es He; cbn in He.
  - now injection He as <- _.
  - destruct (llm_get_embedding text p) as [[e|x] p1]; [|discriminate].
    destruct (embed_each texts p1) as [[es'|x] p2] eqn:Hrest; [|discriminate].
    injection He as <- _. cbn [length]. f_equal. eapply IH. exact Hrest.
Qed.

(** [get_embeddings] returns one vector for each text, whatever the
    provider does; and when the provider raises on any of the texts, every
    vector returned is empty, the ones already obtained included. *)
Theorem get_embeddings_one_vector_per_text (texts : list str) (p : P) :
  length (fst (get_embeddings texts p)) = length texts
  /\ (forall e p', embed_each texts p = (Raise e, p') ->
                   Forall (fun v => v = []) (fst (get_embeddings texts p))).
Proof.
  unfold get_embeddings. destruct texts as [|text texts]; cbn [truthy negb].
  - split; [reflexivity|]. intros e p' He. constructor.
  - destruct (embed_each (text :: texts) p) as [[es|x] p1] eqn:He.
    + split; [eapply embed_each_length; exact He | discriminate].
    + split; [cbn [fst]; now rewrite length_map|].
      intros _ _ _. cbn [fst]. apply List.Forall_forall.
      intros v Hv. apply in_map_iff in Hv as (? & <- & _). reflexivity.
Qed.
End Embeddings.

Lemma get_embeddings_one_vector_per_text_witness :
  Forall (fun v : list float => v = [])
    (fst (@EmbeddingProvider.get_embeddings bool embeds_once
            [s2l "a"; s2l "b"] false)).
Proof.
  exact (proj2 (@get_embeddings_one_vector_per_text bool embeds_once
                  [s2l "a"; s2l "b"] false)
               BackendError true eq_refl).
Defined.

(** Over the OpenAI provider, whose [get_embedding] never raises,
    [get_embeddings] sends one request for each text, and the vector at
    position [i] is the one made of the answer to the [i]-th of those
    requests: a request that fails leaves an empty vector at its position
    and the other vectors are kept. *)
Theorem get_embeddings_openai (self : OpenAIProvider.t)
  (texts : list str) (w : OpenAIProvider.world) :
  EmbeddingProvider.get_embeddings texts (self, w)
  = (imap (fun i _ => embedding_at self (OpenAIProvider.requests w + i)) texts,
     (self,
      OpenAIProvider.mkWorld (OpenAIProvider.requests w + length texts)
                             (OpenAIProvider.slept w))).
Proof.
  assert (Heach : forall texts w,
             EmbeddingProvider.embed_each texts (self, w)
             = (Ok (imap (fun i _ =>
                            embedding_at self (OpenAIProvider.requests w + i))
                         texts),
                (self,
                 OpenAIProvider.mkWorld
                   (OpenAIProvider.requests w + length texts)
                   (OpenAIProvider.slept w)))).
  { clear texts w. induction texts as [|text texts IH]; intros w.
    - cbn. rewrite Nat.add_0_r. now destruct w.
    - cbn [EmbeddingProvider.embed_each llm_get_embedding openai_embedder
           fst snd].
      assert (Hone : OpenAIProvider.get_embedding self text w
                     = (embedding_at self (OpenAIProvider.requests w),
                        OpenAIProvider.sent w)).
      { unfold OpenAIProvider.get_embedding, embedding_at.
        destruct (OpenAIProvider.embed _ _) as [r|e]; [|reflexivity].
        now destruct (OpenAIProvider.data r). }
      rewrite Hone. cbn [fst snd]. rewrite IH.
      rewrite imap_cons. cbn [OpenAIProvider.sent OpenAIProvider.requests
                               OpenAIProvider.slept length].
      rewrite Nat.add_0_r.
      replace (S (OpenAIProvider.requests w) + length texts)%nat
        with (OpenAIProvider.requests w + S (length texts))%nat by lia.
      assert (Himap :
                imap (fun i (_ : str) =>
                        embedding_at self (S (OpenAIProvider.requests w) + i))
                     texts
                = imap ((fun i (_ : str) =>
                           embedding_at self (OpenAIProvider.requests w + i))
                        ∘ S) texts).
      { apply imap_ext. intros i x _. cbn. f_equal. lia. }
      now rewrite Himap. }
  unfold EmbeddingProvider.get_embeddings.
  destruct texts as [|text texts]; cbn [truthy negb].
  - cbn. rewrite Nat.add_0_r. now destruct w.
  - now rewrite Heach.
Qed.

Example get_embeddings_openai_run :
  fst (EmbeddingProvider.get_embeddings [s2l "a"; s2l "b"]
         (OpenAIProvider.init OpenAIProvider.flaky, OpenAIProvider.start))
  = [[]; [1%float; 2%float]].
Proof. reflexivity. Qed.

(** ** The columns of a search answer *)

Section SearchColumns.
Import ChromaVectorStore.
Context {C : Type} `{Collection C}.

Lemma lookup_nth_error {A : Type} (l : list A) :
  forall j : nat, l !! j = nth_error l j.
Proof. induction l as [|x l IH]; intros [|j]; cbn; auto. Qed.

Lemma column_present {A : Type} (row : list A) (rest : list (list A))
  (j : nat) (a : A) :
  row !! j = Some a -> column (Some (row :: rest)) j = Ok (Some a).
Proof.
  intros Hj. unfold column.
  assert (Hrow : truthy row = true) by (destruct row; [discriminate | reflexivity]).
  rewrite Hrow, <- lookup_nth_error, Hj. reflexivity.
Qed.

Lemma column_short {A : Type} (row : list A) (rest : list (list A)) (j : nat) :
  row <> [] -> (length row <= j)%nat ->
  column (Some (row :: rest)) j = Raise IndexError.
Proof.
  intros Hne Hj. unfold column. apply truthy_true in Hne. rewrite Hne.
  rewrite <- lookup_nth_error, lookup_ge_None_2 by lia. reflexivity.
Qed.

Lemma format_loop_lookup (results : query_result) (docs : list str) :
  forall (i : nat) (hs : list hit),
    format_loop results i docs = Ok hs ->
    length hs = length docs
    /\ forall (j : nat) (h : hit),
         hs !! j = Some h ->
         exists doc, docs !! j = Some doc
                     /\ format_hit results (i + j) doc = Ok h.
Proof.
  induction docs as [|doc docs IH]; intros i hs Hf; cbn [format_loop] in Hf.
  - injection Hf as <-. split; [reflexivity | intros j h Hj; discriminate].
  - destruct (format_hit results i doc) as [h0|] eqn:Hh; [|discriminate].
    destruct (format_loop results (S i) docs) as [hs'|] eqn:Hrest;
      [|discriminate].
    injection Hf as <-. destruct (IH _ _ Hrest) as [Hlen Hall].
    split; [cbn [length]; now rewrite Hlen|].
    intros [|j] h Hj; cbn in Hj.
    + injection Hj as <-. exists doc. now rewrite Nat.add_0_r.
    + destruct (Hall j h Hj) as (d & Hd & Hfd). exists d.
      split; [exact Hd|]. now rewrite Nat.add_succ_r.
Qed.

Lemma format_loop_complete (results : query_result) (docs : list str) :
  forall i : nat,
    (forall j doc, docs !! j = Some doc ->
                   exists h, format_hit results (i + j) doc = Ok h) ->
    exists hs, format_loop results i docs = Ok hs.
Proof.
  induction docs as [|doc docs IH]; intros i Hall; cbn [format_loop].
  - now exists [].
  - destruct (Hall 0%nat doc eq_refl) as [h Hh].
    rewrite Nat.add_0_r in Hh. rewrite Hh.
    destruct (IH (S i)) as [hs Hhs].
    { intros j d Hd. destruct (Hall (S j) d Hd) as [h' Hh'].
      exists h'. now rewrite Nat.add_succ_r in Hh'. }
    rewrite Hhs. now exists (h :: hs).
Qed.

Lemma format_loop_fails (results : query_result) (docs : list str) :
  forall (i j : nat) (doc : str) (e : exn),
    docs !! j = Some doc -> format_hit results (i + j) doc = Raise e ->
    exists e', format_loop results i docs = Raise e'.
Proof.
  induction docs as [|d docs IH]; intros i j doc e Hj Hf; [discriminate|].
  cbn [format_loop]. destruct j as [|j]; cbn in Hj.
  - injection Hj as ->. rewrite Nat.add_0_r in Hf. rewrite Hf. now exists e.
  - destruct (format_hit results i d); [|eauto].
    rewrite Nat.add_succ_r in Hf.
    destruct (IH (S i) j doc e Hj Hf) as [e' ->]. now exists e'.
Qed.

(** When the answer of the collection has its four columns and none is
    shorter than [documents], [similarity_search] returns one result for
    each document, and the [j]-th result is made of the [j]-th entry of
    each column. *)
Theorem similarity_search_reads_columns (query : str) (k : Z)
  (filter : option meta) (self : t C) (results : query_result) (c' : C)
  (docs : list str) (metas : list meta) (idl : list string)
  (dists : list float) (r1 : list (list str)) (r2 : list (list meta))
  (r3 : list (list string)) (r4 : list (list float)) :
  coll_query query k filter (collection self) = (Ok results, c') ->
  documents results = Some (docs :: r1) ->
  metadatas results = Some (metas :: r2) ->
  ids results = Some (idl :: r3) ->
  distances results = Some (dists :: r4) ->
  (length docs <= length metas)%nat -> (length docs <= length idl)%nat ->
  (length docs <= length dists)%nat ->
  let hits := fst (similarity_search query k filter self) in
  length hits = length docs
  /\ forall (j : nat) (h : hit),
       hits !! j = Some h ->
       docs !! j = Some (hit_text h)
       /\ metas !! j = Some (hit_metadata h)
       /\ idl !! j = hit_id h
       /\ dists !! j = hit_score h.
Proof.
  intros Hq Hdocs Hmetas Hids Hdists Hm Hi Hd hits. subst hits.
  unfold similarity_search. rewrite Hq, Hdocs.
  destruct docs as [|doc0 docs'] eqn:Edocs.
  { cbn. split; [reflexivity | intros j h Hj; discriminate]. }
  rewrite <- Edocs in *. assert (Ht : truthy docs = true) by now rewrite Edocs.
  rewrite Ht.
  assert (Hhit : forall j doc, docs !! j = Some doc ->
            exists m i s,
              metas !! j = Some m /\ idl !! j = Some i /\ dists !! j = Some s
              /\ format_hit results (0 + j) doc = Ok (mkHit doc m (Some i) (Some s))).
  { intros j doc Hj. apply lookup_lt_Some in Hj as Hlt.
    destruct (lookup_lt_is_Some_2 metas j ltac:(lia)) as [m Hmj].
    destruct (lookup_lt_is_Some_2 idl j ltac:(lia)) as [i Hij].
    destruct (lookup_lt_is_Some_2 dists j ltac:(lia)) as [s Hsj].
    exists m, i, s. repeat split; try assumption.
    unfold format_hit. rewrite Hmetas, Hids, Hdists. cbn [Nat.add].
    now rewrite (column_present _ _ _ _ Hmj), (column_present _ _ _ _ Hij),
      (column_present _ _ _ _ Hsj). }
  destruct (format_loop_complete results docs 0) as [hs Hhs].
  { intros j doc Hj. destruct (Hhit j doc Hj) as (m & i & s & _ & _ & _ & Hf).
    eauto. }
  rewrite Hhs. cbn [fst].
  destruct (format_loop_lookup results docs 0 hs Hhs) as [Hlen Hall].
  split; [exact Hlen|].
  intros j h Hj. destruct (Hall j h Hj) as (doc & Hdoc & Hf).
  destruct (Hhit j doc Hdoc) as (m & i & s & Hmj & Hij & Hsj & Hf').
  rewrite Hf' in Hf. injection Hf as <-. cbn [hit_text hit_metadata hit_id hit_score].
  repeat split; assumption.
Qed.

(** When a column that is present and not empty is shorter than
    [documents], the [IndexError] of the formatting loop is swallowed and
    [similarity_search] returns no result at all. *)
Theorem similarity_search_short_column (query : str) (k : Z)
  (filter : option meta) (self : t C) (results : query_result) (c' : C)
  (docs : list str) (r1 : list (list str)) :
  coll_query query k filter (collection self) = (Ok results, c') ->
  documents results = Some (docs :: r1) ->
  (exists metas r2, metadatas results = Some (metas :: r2)
                    /\ metas <> [] /\ (length metas < length docs)%nat)
  \/ (exists idl r3, ids results = Some (idl :: r3)
                     /\ idl <> [] /\ (length idl < length docs)%nat)
  \/ (exists dists r4, distances results = Some (dists :: r4)
                       /\ dists <> [] /\ (length dists < length docs)%nat) ->
  fst (similarity_search query k filter self) = [].
Proof.
  intros Hq Hdocs Hshort. unfold similarity_search. rewrite Hq, Hdocs.
  destruct (truthy docs); [|reflexivity].
  assert (Hfail : exists j doc e,
            docs !! j = Some doc /\ format_hit results (0 + j) doc = Raise e).
  { destruct Hshort as [(row & r & Hcol & Hne & Hlt)
                       |[(row & r & Hcol & Hne & Hlt)
                        |(row & r & Hcol & Hne & Hlt)]];
      destruct (lookup_lt_is_Some_2 docs (length row) Hlt) as [doc Hdoc];
      exists (length row), doc; unfold format_hit; cbn [Nat.add];
      rewrite Hcol, (column_short row r (length row) Hne) by lia.
    - now exists IndexError.
    - destruct (column (metadatas results) (length row)); eauto.
    - destruct (column (metadatas results) (length row)); [|eauto].
      destruct (column (ids results) (length row)); eauto. }
  destruct Hfail as (j & doc & e & Hdoc & Hf).
  destruct (format_loop_fails results docs 0 j doc e Hdoc Hf) as [e' ->].
  reflexivity.
Qed.
End SearchColumns.

(** ** Metadata and file selection in the document processor *)

Section ProcessorMetadata.
Import DocumentProcessor.
Variables (self : t).

Lemma merged_metadata (metadata' : option meta) (base : meta) :
  (if truthy_dict metadata' then default ∅ metadata' ∪ base else base)
  = default ∅ metadata' ∪ base.
Proof.
  assert (Hempty : (∅ : gmap string value) ∪ base = base)
    by apply map_empty_union.
  destruct metadata' as [m|]; unfold truthy_dict, default; cbn [from_option id].
  - case_bool_decide as Hm; cbn [negb]; [|reflexivity].
    subst m. now rewrite Hempty.
  - now rewrite Hempty.
Qed.

(** Every record of a file carries the caller's metadata and, for the keys
    the caller left out, the base fields. *)
Lemma text_file_metadata (file_path : path) (metadata' : option meta)
  (d : document) :
  In d (_process_text_file self file_path metadata') ->
  forall k : string,
    k <> "chunk_index"%string -> k <> "chunk_count"%string ->
    metadata d !! k
    = (default ∅ metadata'
       ∪ <["file_name" := VStr (name file_path)]>
           (<["file_type" := VStr (lower (suffix file_path))]>
              (<["source" := VStr (path_str file_path)]> ∅))) !! k.
Proof.
  unfold _process_text_file. intros Hd k Hi Hc.
  destruct (read file_path) as [content|]; [|contradiction].
  rewrite merged_metadata in Hd.
  destruct (chunk_text content _ _ newline) as [cs|]; [|contradiction].
  apply list_elem_of_In, list_elem_of_lookup in Hd as [i Hd].
  apply list_lookup_imap_Some in Hd as (chunk & _ & ->).
  cbn [metadata]. now rewrite !lookup_insert_ne by congruence.
Qed.

(** The caller's metadata wins over the base fields [source], [file_type]
    and [file_name]; a base field the caller does not give is the path,
    the lower-cased suffix and the name of the file. *)
Theorem process_text_file_caller_metadata_wins (file_path : path)
  (metadata' : option meta) (d : document) :
  In d (_process_text_file self file_path metadata') ->
  let caller := default ∅ metadata' in
  (forall (k : string) (v : value),
      caller !! k = Some v ->
      k <> "chunk_index"%string -> k <> "chunk_count"%string ->
      metadata d !! k = Some v)
  /\ (caller !! "source"%string = None ->
      metadata d !! "source"%string = Some (VStr (path_str file_path)))
  /\ (caller !! "file_type"%string = None ->
      metadata d !! "file_type"%string
      = Some (VStr (lower (suffix file_path))))
  /\ (caller !! "file_name"%string = None ->
      metadata d !! "file_name"%string = Some (VStr (name file_path))).
Proof.
  intros Hd caller. subst caller.
  pose proof (text_file_metadata file_path metadata' d Hd) as Hk.
  split; [|split; [|split]].
  - intros k v Hv Hi Hc. rewrite Hk by assumption.
    now apply lookup_union_Some_l.
  - intros Hnone. rewrite Hk by discriminate.
    now rewrite lookup_union_r by assumption.
  - intros Hnone. rewrite Hk by discriminate.
    now rewrite lookup_union_r by assumption.
  - intros Hnone. rewrite Hk by discriminate.
    now rewrite lookup_union_r by assumption.
Qed.

Lemma process_file_unsupported (file_path : path) (metadata' : option meta) :
  lower (suffix file_path) ∉ supported ->
  process_file self file_path metadata' = [].
Proof.
  intros Hn. unfold process_file. destruct (exists_ file_path); [|reflexivity].
  cbn [negb]. now rewrite bool_decide_eq_false_2.
Qed.

Lemma process_file_records_cases (file_path : path)
  (metadata' : option meta) :
  process_file self file_path metadata' <> [] ->
  exists_ file_path = true
  /\ lower (suffix file_path) ∈ supported
  /\ exists content, read file_path = Ok content /\ content <> [].
Proof.
  unfold process_file. intros Hne.
  destruct (exists_ file_path); [|contradiction]. cbn [negb] in Hne.
  destruct (bool_decide_reflect (lower (suffix file_path) ∈ supported))
    as [Hs|]; [|contradiction].
  split; [reflexivity|]. split; [exact Hs|].
  unfold _process_text_file in Hne.
  destruct (read file_path) as [content|]; [|contradiction].
  exists content. split; [reflexivity|]. intros ->.
  rewrite chunk_text_empty in Hne. now apply Hne.
Qed.

(** [process_file] returns records only for a file that exists, whose
    suffix, lower-cased, is one of the seven supported ones, and that can
    be read and is not empty. *)
Theorem process_file_nonempty (file_path : path) (metadata' : option meta) :
  process_file self file_path metadata' <> [] ->
  exists_ file_path = true
  /\ lower (suffix file_path) ∈ supported
  /\ exists content, read file_path = Ok content /\ content <> [].
Proof. apply process_file_records_cases. Qed.
End ProcessorMetadata.

Section Directory.
Import DocumentProcessor.
Variables (self : t) (d : directory) (file_types : option (list string))
  (metadata' : option meta).

(** Passing [file_types] cannot widen what is processed: a directory none
    of whose files has a supported suffix gives no record, whatever
    [file_types] lists. *)
Theorem process_directory_unsupported_only (recursive : bool) :
  (forall file_path,
      In file_path (if recursive then map fst (walk d)
                    else map fst (iterdir d)) ->
      lower (suffix file_path) ∉ supported) ->
  process_directory self d file_types recursive metadata' = [].
Proof.
  intros Hnone. unfold process_directory.
  destruct (negb (dir_exists d) || negb (is_dir d)); [reflexivity|].
  destruct recursive.
  - apply concat_nil_Forall, List.Forall_forall. intros docs Hdocs.
    apply in_map_iff in Hdocs as ([fp rel] & <- & Hin). cbn [fst snd].
    destruct (bool_decide _); [|reflexivity].
    apply process_file_unsupported, Hnone, in_map_iff.
    now exists (fp, rel).
  - apply concat_nil_Forall, List.Forall_forall. intros docs Hdocs.
    apply in_map_iff in Hdocs as ([fp isf] & <- & Hin). cbn [fst snd].
    destruct (isf && bool_decide _); [|reflexivity].
    apply process_file_unsupported, Hnone, in_map_iff.
    now exists (fp, isf).
Qed.

(** In a recursive run every record comes from a file that [os.walk]
    yielded, whose lower-cased suffix is both in the normalised
    [file_types] and supported, and the record carries the path of that
    file relative to the directory under [relative_path]. *)
Theorem process_directory_records (doc : document) :
  In doc (process_directory self d file_types true metadata') ->
  exists (file_path : path) (relative_path : string),
    In (file_path, relative_path) (walk d)
    /\ lower (suffix file_path)
       ∈ map normalize_file_type (default supported file_types)
    /\ lower (suffix file_path) ∈ supported
    /\ metadata doc !! "relative_path"%string = Some (VStr relative_path).
Proof.
  unfold process_directory. intros Hdoc.
  destruct (negb (dir_exists d) || negb (is_dir d)); [contradiction|].
  apply in_concat in Hdoc as (docs & Hdocs & Hdoc).
  apply in_map_iff in Hdocs as ([fp rel] & <- & Hin). cbn [fst snd] in Hdoc.
  destruct (bool_decide_reflect
              (lower (suffix fp)
               ∈ map normalize_file_type (default supported file_types)))
    as [Hsel|]; [|contradiction].
  exists fp, rel. split; [exact Hin|]. split; [exact Hsel|].
  assert (Hne : process_file self fp (Some (file_metadata metadata' rel)) <> []).
  { intros Hnil. now rewrite Hnil in Hdoc. }
  destruct (process_file_records_cases self fp _ Hne) as (_ & Hsup & _).
  split; [exact Hsup|].
  unfold process_file in Hdoc. destruct (exists_ fp); [|contradiction].
  cbn [negb] in Hdoc. destruct (bool_decide _); [|contradiction].
  rewrite (text_file_metadata self fp _ doc Hdoc) by discriminate.
  apply lookup_union_Some_l. cbn [default]. unfold file_metadata.
  apply lookup_insert_eq.
Qed.
End Directory.

(** ** The agent's conversation *)

Lemma slice_drop_last {A : Type} (l : list A) (x : A) :
  slice (l ++ [x]) 0 (-1) = l.
Proof.
  unfold slice, clamp_index. cbn [Z.ltb Z.compare].
  pose proof (len_nonneg (l ++ [x])) as Hn.
  rewrite Z.min_l by lia. cbn [Z.to_nat skipn].
  replace (Z.to_nat (Z.max 0 (-1 + len (l ++ [x])) - 0)) with (length l).
  - apply take_app_length.
  - unfold len. rewrite length_app. cbn [length]. lia.
Qed.

Lemma alternating_snoc (u a : message) :
  role u = s2l "user" -> role a = s2l "assistant" ->
  forall history, alternating history -> alternating (history ++ [u; a]).
Proof.
  intros Hu Ha.
  assert (Hn : forall (n : nat) history,
            (length history <= n)%nat ->
            alternating history -> alternating (history ++ [u; a])).
  { induction n as [|n IH]; intros [|x [|y rest]] Hlen Halt;
      cbn in Hlen, Halt |- *; try lia; try contradiction; try tauto.
    destruct Halt as (Hx & Hy & Hrest). repeat split; try assumption.
    apply IH; [lia | exact Hrest]. }
  intros history. apply (Hn (length history)). lia.
Qed.

Section Conversation.
Import DataAgent.
Context {L S : Type} `{LLM L} `{VectorStore S}.

(** The messages [chat] sends to the model are a system message, the
    conversation as it was before the call, and the new user message, once
    and last.  The conversation then grows by the user message and the
    answer. *)
Theorem chat_sends_history_once (text : str) (use_rag : bool) (self : t L S) :
  exists (system : str) (r : DocumentRetriever.t S),
    let sent :=
      mkMessage (s2l "system") (Some system)
      :: conversation_history self ++ [user text] in
    let answer := llm_generate_with_history sent (llm self) in
    chat text use_rag self
    = (fst answer,
       mkAgent (snd answer) r
               (conversation_history self
                ++ [user text; assistant (fst answer)])).
Proof.
  unfold chat, _prepare_chat_messages.
  destruct (retrieve_context text use_rag (retriever self)) as [context r].
  assert (Htruthy : truthy (conversation_history self ++ [user text]) = true)
    by now destruct (conversation_history self).
  rewrite Htruthy, slice_drop_last. cbn zeta. cbn [app].
  match goal with
  | |- context [mkMessage _ (Some ?system)] => exists system, r
  end.
  destruct (llm_generate_with_history _ (llm self)) as [response l].
  cbn [fst snd]. now rewrite <- app_assoc.
Qed.

(** A conversation made of exchanges stays one through [chat], [query] and
    [clear_conversation]. *)
Theorem conversation_stays_alternating (text : str) (use_rag : bool)
  (self : t L S) :
  alternating (conversation_history self) ->
  alternating (conversation_history (snd (chat text use_rag self)))
  /\ alternating (conversation_history (snd (query text use_rag self)))
  /\ alternating (conversation_history (clear_conversation self)).
Proof.
  intros Halt. split; [|split; [|exact I]].
  - unfold chat.
    destruct (retrieve_context text use_rag (retriever self)) as [context r].
    destruct (llm_generate_with_history _ (llm self)) as [response l].
    cbn [snd conversation_history]. rewrite <- app_assoc.
    now apply alternating_snoc.
  - unfold query.
    destruct (retrieve_context text use_rag (retriever self)) as [context r].
    destruct (llm_generate _ (llm self)) as [response l].
    cbn [snd conversation_history]. rewrite <- app_assoc.
    now apply alternating_snoc.
Qed.

(** Without retrieval, or when nothing is retrieved, [query] sends the
    query itself as the prompt. *)
Lemma query_without_context (text : str) (use_rag : bool) (self : t L S) :
  fst (retrieve_context text use_rag (retriever self)) = [] ->
  fst (query text use_rag self) = fst (llm_generate text (llm self)).
Proof.
  unfold query.
  destruct (retrieve_context text use_rag (retriever self)) as [context r].
  cbn [fst]. intros ->. cbn [truthy].
  now destruct (llm_generate text (llm self)).
Qed.
End Conversation.

(** ** Runs of the further properties *)

Lemma conversation_stays_alternating_witness :
  alternating (DataAgent.conversation_history Fixture2.agent)
  /\ alternating
       (DataAgent.conversation_history
          (snd (DataAgent.chat (s2l "hello") false Fixture2.agent))).
Proof.
  assert (H0 : alternating (DataAgent.conversation_history Fixture2.agent))
    by exact I.
  split; [exact H0|].
  exact (proj1 (conversation_stays_alternating (s2l "hello") false
                  Fixture2.agent H0)).
Defined.

Example chat_run :
  fst (DataAgent.chat (s2l "hello") false
         (snd (DataAgent.chat (s2l "hi") false Fixture2.agent)))
  = Some (s2l "ok")
  /\ map role
       (DataAgent.conversation_history
          (snd (DataAgent.chat (s2l "hello") false
                  (snd (DataAgent.chat (s2l "hi") false Fixture2.agent)))))
     = [s2l "user"; s2l "assistant"; s2l "user"; s2l "assistant"].
Proof. split; reflexivity. Qed.

Lemma similarity_search_reads_columns_witness :
  length (fst (ChromaVectorStore.similarity_search (s2l "alpha") 2 None
                 Fixture.store)) = 2%nat.
Proof.
  exact (proj1 (similarity_search_reads_columns (s2l "alpha") 2 None
                  Fixture.store _ _
                  [s2l "alpha"; s2l "beta"] _ ["a"; "b"]%string _
                  [] [] [] []
                  eq_refl eq_refl eq_refl eq_refl eq_refl
                  (le_n 2) (le_n 2) (le_n 2))).
Defined.

Lemma similarity_search_short_column_witness :
  fst (@ChromaVectorStore.similarity_search unit Fixture2.ragged
         (s2l "alpha") 2 None Fixture2.ragged_store) = [].
Proof.
  apply (@similarity_search_short_column unit Fixture2.ragged
           (s2l "alpha") 2 None Fixture2.ragged_store _ tt
           [s2l "alpha"; s2l "beta"] [] eq_refl eq_refl).
  right. left. exists ["a"%string], [].
  split; [reflexivity|]. split; [discriminate | cbn; lia].
Defined.

Lemma process_text_file_caller_metadata_wins_witness :
  exists d : DocumentProcessor.document,
    In d (DocumentProcessor._process_text_file DocumentProcessor.init
            Fixture.notes_txt (Some {[ "source"%string := VStr "wiki" ]}))
    /\ DocumentProcessor.metadata d !! "source"%string = Some (VStr "wiki")
    /\ DocumentProcessor.metadata d !! "file_type"%string
       = Some (VStr ".txt").
Proof.
  destruct (DocumentProcessor._process_text_file DocumentProcessor.init
              Fixture.notes_txt (Some {[ "source"%string := VStr "wiki" ]}))
    as [|d rest] eqn:E; [vm_compute in E; discriminate|].
  exists d.
  assert (Hin : In d (DocumentProcessor._process_text_file
                        DocumentProcessor.init Fixture.notes_txt
                        (Some {[ "source"%string := VStr "wiki" ]})))
    by (rewrite E; now left).
  rewrite <- E. split; [exact Hin|].
  destruct (process_text_file_caller_metadata_wins DocumentProcessor.init
              Fixture.notes_txt (Some {[ "source"%string := VStr "wiki" ]})
              d Hin) as (Hcaller & _ & Htype & _).
  split.
  - apply Hcaller; [apply lookup_singleton_eq | discriminate | discriminate].
  - apply Htype. now apply lookup_singleton_ne.
Defined.

Lemma process_file_nonempty_witness :
  DocumentProcessor.process_file DocumentProcessor.init Fixture.notes_txt None
  <> []
  /\ DocumentProcessor.lower (DocumentProcessor.suffix Fixture.notes_txt)
     ∈ DocumentProcessor.supported.
Proof.
  assert (Hne : DocumentProcessor.process_file DocumentProcessor.init
                  Fixture.notes_txt None <> [])
    by (vm_compute; discriminate).
  split; [exact Hne|].
  exact (proj1 (proj2 (process_file_nonempty DocumentProcessor.init
                         Fixture.notes_txt None Hne))).
Defined.

Lemma process_directory_unsupported_only_witness :
  process_directory DocumentProcessor.init Fixture2.pictures_dir
    (Some [".png"; "PNG"]%string) true None = [].
Proof.
  apply (process_directory_unsupported_only DocumentProcessor.init
           Fixture2.pictures_dir (Some [".png"; "PNG"]%string) None true).
  intros file_path [<-|[]]. rewrite list_elem_of_In.
  cbn. intuition discriminate.
Defined.

Lemma process_directory_records_witness :
  exists doc : DocumentProcessor.document,
    In doc (process_directory DocumentProcessor.init Fixture2.docs_dir
              None true None)
    /\ exists (file_path : DocumentProcessor.path) (relative_path : string),
         In (file_path, relative_path) (walk Fixture2.docs_dir)
         /\ DocumentProcessor.metadata doc !! "relative_path"%string
            = Some (VStr relative_path).
Proof.
  destruct (process_directory DocumentProcessor.init Fixture2.docs_dir
              None true None) as [|doc rest] eqn:E;
    [vm_compute in E; discriminate|].
  exists doc.
  assert (Hin : In doc (process_directory DocumentProcessor.init
                          Fixture2.docs_dir None true None))
    by (rewrite E; now left).
  rewrite <- E. split; [exact Hin|].
  destruct (process_directory_records DocumentProcessor.init Fixture2.docs_dir
              None None doc Hin) as (fp & rel & Hwalk & _ & _ & Hrel).
  exists fp, rel. split; assumption.
Defined.

Example process_directory_run :
  map (fun d => (DocumentProcessor.text d,
                 DocumentProcessor.metadata d !! "relative_path"%string))
      (process_directory DocumentProcessor.init Fixture2.docs_dir
         (Some ["TXT"; "png"]%string) true None)
  = [(s2l "one" ++ newline ++ s2l "two", Some (VStr "notes.TXT"))].
Proof. vm_compute. reflexivity. Qed.
